(** * Job-application e-mail bot: a shallow embedding and its properties

    The repository holds two variants of one script:
    - the _simplified_ variant, [send_bulk_intern_emails.js]
      (module [Simplified]);
    - the _extended_ variant, the script kept after the read-me text
      (module [Extended]).

    Both are embedded below as functions in a small state-and-exception
    monad.  Everything outside the script (the SMTP transport, the clock,
    the environment variables, the files on disk) is a parameter gathered
    in [Env]; what the script does to the outside (mail sent, log file
    written, sleeping, console lines) is recorded in an event trace.

    The properties are numbered C1 to C10.  Where a property holds of one
    variant only, the theorem says of each variant what it does, and a
    closed lemma shows the other variant at a concrete input. *)

From Stdlib Require Import NArith ZArith String Ascii Lia.
From stdpp Require Import base decidable countable list gmap.

Local Open Scope N_scope.

(** ** JavaScript values and strings *)

Module JS.

(** A JavaScript string is the sequence of its UTF-16 code units. *)
Abbreviation jsstring := (list N).

(** An ASCII literal as a JavaScript string. *)
Definition js (s : string) : jsstring :=
  List.map N_of_ascii (list_ascii_of_string s).

(** The values a property of a parsed contact or log record holds: a
    string, [null], or nothing at all ([undefined], what reading a
    property that the object does not carry gives).  The two JSON files
    are taken to hold no numbers, booleans or nested objects in the
    properties the script reads. *)
Inductive jsval :=
| JUndefined
| JNull
| JStr (s : jsstring).

#[global] Instance jsval_eq_dec : EqDecision jsval.
Proof. solve_decision. Defined.

#[global] Instance jsval_countable : Countable jsval.
Proof.
  refine (inj_countable'
    (fun v => match v with
              | JUndefined => inl false
              | JNull => inl true
              | JStr s => inr s
              end)
    (fun x => match x with
              | inl false => JUndefined
              | inl true => JNull
              | inr s => JStr s
              end) _).
  by intros [].
Defined.

(** ToBoolean: [undefined], [null] and the empty string are falsy. *)
Definition truthy (v : jsval) : bool :=
  match v with
  | JStr (_ :: _) => true
  | _ => false
  end.

(** [a || b] *)
Definition or_else (a b : jsval) : jsval := if truthy a then a else b.

(** [a !== b] on these values *)
Definition strict_ne (a b : jsval) : bool := bool_decide (a ≠ b).

(** ToString, as a template literal applies it. *)
Definition to_string (v : jsval) : jsstring :=
  match v with
  | JUndefined => js "undefined"
  | JNull => js "null"
  | JStr s => s
  end.

(** [String.prototype.includes] with a one-unit needle. *)
Definition includes (s : jsstring) (c : N) : bool := bool_decide (c ∈ s).

(** White space and line terminators: what [\s] matches and what [trim]
    removes. *)
Definition is_space (c : N) : bool :=
  ((9 <=? c) && (c <=? 13)) || (c =? 32) || (c =? 160) || (c =? 5760)
  || ((8192 <=? c) && (c <=? 8202)) || (c =? 8232) || (c =? 8233)
  || (c =? 8239) || (c =? 8287) || (c =? 12288) || (c =? 65279).

Fixpoint drop_spaces (s : jsstring) : jsstring :=
  match s with
  | c :: s' => if is_space c then drop_spaces s' else s
  | [] => []
  end.

(** [String.prototype.trim] *)
Definition trim (s : jsstring) : jsstring :=
  rev (drop_spaces (rev (drop_spaces s))).

(** Case folding of the [i] flag.  Without the [u] flag a code unit of 128
    or more never folds to one below 128, so against the ASCII letters of
    a pattern only ASCII letters fold. *)
Definition canon (c : N) : N :=
  if (97 <=? c) && (c <=? 122) then c - 32 else c.

(** [match_prefix pat s]: [pat] matches at the start of [s], ignoring case;
    the result is what follows the match. *)
Fixpoint match_prefix (pat s : jsstring) : option jsstring :=
  match pat, s with
  | [], _ => Some s
  | p :: pat', c :: s' =>
      if canon p =? canon c then match_prefix pat' s' else None
  | _ :: _, [] => None
  end.

(** The alternatives of the pattern, in the order the pattern lists them. *)
Definition honorifics : list jsstring :=
  [js "Mr."; js "Mrs."; js "Ms."; js "Dr."; js "M."; js "Mme."].

Fixpoint first_match (alts : list jsstring) (s : jsstring) : option jsstring :=
  match alts with
  | [] => None
  | a :: alts' =>
      match match_prefix a s with
      | Some rest => Some rest
      | None => first_match alts' s
      end
  end.

(** [s.replace(/^(Mr\.|Mrs\.|Ms\.|Dr\.|M\.|Mme\.)\s*/i, '')]: the first
    alternative that matches at the start is taken (the [\s*] after it
    always succeeds, so there is no backtracking into the group), the
    white space after it goes too; no match leaves [s] as it is. *)
Definition strip_title (s : jsstring) : jsstring :=
  match first_match honorifics s with
  | Some rest => drop_spaces rest
  | None => s
  end.

(** Errors: only the message is ever read. *)
Record Error := mkError { name : jsstring; message : jsstring }.

#[global] Instance Error_eq_dec : EqDecision Error.
Proof. solve_decision. Defined.

(** A computation that returns or throws. *)
Inductive res (A : Type) :=
| Val (a : A)
| Err (e : Error).
Arguments Val {A} a.
Arguments Err {A} e.

(** What the engine throws on a property read from [undefined] or
    [null]. *)
Definition cannot_read (v : jsval) (prop : jsstring) : Error :=
  mkError (js "TypeError")
    (js "Cannot read properties of " ++ to_string v
       ++ js " (reading '" ++ prop ++ js "')").

(** [v.replace(/^(...)\s*/i, '').trim()] *)
Definition replace_trim (v : jsval) : res jsval :=
  match v with
  | JStr s => Val (JStr (trim (strip_title s)))
  | _ => Err (cannot_read v (js "replace"))
  end.

(** [v?.replace(/^(...)\s*/i, '').trim()]: the chain stops with
    [undefined] when [v] is [undefined] or [null]. *)
Definition opt_replace_trim (v : jsval) : res jsval :=
  match v with
  | JUndefined | JNull => Val JUndefined
  | _ => replace_trim v
  end.

End JS.
Export JS.

(** ** The outside world, the program state and the monad *)

Module Sys.

(** A raw record of the contact list: the six properties either variant
    reads ([JUndefined] where the object lacks the property). *)
Record Contact := mkContact {
  email : jsval;
  companyName : jsval;
  founderName : jsval;
  EntrepriseContactEmail : jsval;
  EntrepriseName : jsval;
  EntrepriseContactName : jsval
}.

(** An object pushed on a sequence of the log.  A property holding
    [JUndefined] is one the written file does not carry. *)
Record LogEntry := mkEntry {
  entry_email : jsval;
  entry_companyName : jsval;
  entry_timestamp : jsval;
  entry_status : jsval;
  entry_error : jsval
}.

Record Log := mkLog { sent : list LogEntry; failed : list LogEntry }.

#[global] Instance Contact_eq_dec : EqDecision Contact.
Proof. solve_decision. Defined.
#[global] Instance LogEntry_eq_dec : EqDecision LogEntry.
Proof. solve_decision. Defined.
#[global] Instance Log_eq_dec : EqDecision Log.
Proof. solve_decision. Defined.

(** [{ sent: [], failed: [] }] *)
Definition empty_log : Log := mkLog [] [].

(** A JSON file: not there, there but not parseable (with the error the
    parser raises on it), or holding a value. *)
Inductive file (A : Type) :=
| Missing
| Corrupt (e : Error)
| Holds (a : A).
Arguments Missing {A}.
Arguments Corrupt {A} e.
Arguments Holds {A} a.

(** An attachment: by path (simplified variant) or by name and content
    (extended variant). *)
Inductive Attachment :=
| ByPath (path : jsstring)
| ByContent (filename : jsstring) (content : list N).

(** The object handed to [sendMail]. *)
Record MailOptions := mkMail {
  mail_from : jsval;
  mail_to : jsval;
  mail_subject : jsstring;
  mail_text : jsstring;
  mail_attachments : list Attachment
}.

(** What [nodemailer.createTransport] is given: host, port and the
    [secure] flag are the same constants in both variants, the
    credentials come from the environment. *)
Record Transporter := mkTransporter { auth_user : jsval; auth_pass : jsval }.

(** Everything the script reads and does not control. *)
Record Env := mkEnv {
  (** [process.env.GMAIL_USER] *)
  GMAIL_USER : jsval;
  (** [process.env.GMAIL_APP_PASSWORD] *)
  GMAIL_APP_PASSWORD : jsval;
  (** the file at [CONFIG.CV_PATH]: its content when it exists *)
  cv_file : option (list N);
  (** the file at [CONFIG.COMPANIES_JSON] *)
  companies_file : file (list Contact);
  (** the mail provider: the answer to the [k]-th [sendMail] call of the
      run, [None] for delivered, [Some e] for the error it rejects with *)
  smtp : nat -> Transporter -> MailOptions -> option Error;
  (** [new Date().toISOString()] at the [k]-th reading of the clock *)
  clock : nat -> jsstring
}.

(** Console output, one constructor per [console.log], [console.warn]
    or [console.error] call of either variant, with the values the line
    interpolates. *)
Inductive line :=
(* simplified variant *)
| LSendingTo (n : nat)
| LProgress (i n : nat) (company address : jsval)
| LSent
| LWaiting (minutes : N)
| LFailed (msg : jsstring)
| LTotals (nsent nfailed : nat)
| LHelp
(* extended variant *)
| XStarting
| XLoaded (n : nat)
| XLoadError (msg : jsstring)
| XWarnLog (msg : jsstring)
| XWarnCV (path : jsstring)
| XAlready (n : nat)
| XWillSend (n : nat)
| XEstimated (minutes : N)
| XNoNew
| XPreviewHead
| XPreview (i : nat) (company address : jsval)
| XBlank
| XSendingTo (i n : nat) (company : jsval)
| XEmail (address : jsval)
| XContact (founder : jsval)
| XSentOk
| XWaiting (minutes : N)
| XFailed (msg : jsstring)
| XRule
| XSummaryHead
| XSuccessCount (n : nat)
| XFailCount (n : nat)
| XTotal (n : nat)
| XLogSaved (path : jsstring)
| XSingle (address : jsval)
| XSingleOk (address : jsval)
| XSingleFail (msg : jsstring)
| XUsage.

(** What the script does to the outside, in order. *)
Inductive event :=
| Console (l : line)
| SendMail (t : Transporter) (o : MailOptions) (r : option Error)
| WriteLog (l : Log)
| Sleep (ms : N).

(** The state a run threads: the log file on disk, how often the
    provider and the clock were asked, the trace so far, and the
    variables of [sendBulkEmails] that the loop mutates (the [log] object
    and, in the extended variant, the two counters).  The projections
    are primitive, so that they compute on a state that is built. *)
#[projections(primitive)]
Record State := mkState {
  log_file : file Log;
  sends : nat;
  ticks : nat;
  trace : list event;
  log : Log;
  successCount : nat;
  failCount : nat
}.

Definition initial (f : file Log) : State := mkState f 0 0 [] empty_log 0 0.

(** How a computation ends: with a value, with a thrown error, or by
    [process.exit]. *)
Inductive outcome (A : Type) :=
| Ret (a : A)
| Throw (e : Error)
| Exit (code : Z).
Arguments Ret {A} a.
Arguments Throw {A} e.
Arguments Exit {A} code.

Definition M (A : Type) : Type := State -> outcome A * State.

Definition ret {A} (a : A) : M A := fun s => (Ret a, s).

Definition bind {A B} (m : M A) (k : A -> M B) : M B :=
  fun s =>
    match m s with
    | (Ret a, s') => k a s'
    | (Throw e, s') => (Throw e, s')
    | (Exit c, s') => (Exit c, s')
    end.

Definition throw {A} (e : Error) : M A := fun s => (Throw e, s).

(** [process.exit(code)] *)
Definition process_exit {A} (code : Z) : M A := fun s => (Exit code, s).

(** [try { m } catch (error) { h error }]: state changes made before the
    throw stay; [process.exit] is not caught. *)
Definition try_catch {A} (m : M A) (h : Error -> M A) : M A :=
  fun s =>
    match m s with
    | (Throw e, s') => h e s'
    | r => r
    end.

Definition lift {A} (r : res A) : M A :=
  match r with
  | Val a => ret a
  | Err e => throw e
  end.

Declare Scope js_scope.
Delimit Scope js_scope with js.
Notation "x <- m ;; k" := (bind m (fun x => k))
  (at level 100, m at next level, right associativity) : js_scope.
Notation "m ;; k" := (bind m (fun _ => k))
  (at level 100, right associativity) : js_scope.
Local Open Scope js_scope.

Definition get {A} (f : State -> A) : M A := fun s => (Ret (f s), s).

Definition emit (e : event) : M unit :=
  fun s => (Ret tt,
            mkState (log_file s) (sends s) (ticks s) (trace s ++ [e])
                    (log s) (successCount s) (failCount s)).

Definition console (l : line) : M unit := emit (Console l).

(** [new Date().toISOString()] *)
Definition now (env : Env) : M jsstring :=
  fun s => (Ret (clock env (ticks s)),
            mkState (log_file s) (sends s) (S (ticks s)) (trace s)
                    (log s) (successCount s) (failCount s)).

(** [await sleep(...)], for [ms] milliseconds *)
Definition sleep_ms (ms : N) : M unit := emit (Sleep ms).

(** [fs.existsSync(CONFIG.LOG_FILE)] *)
Definition log_exists : M bool :=
  get (fun s => match log_file s with Missing => false | _ => true end).

(** The error of reading a file that is not there. *)
Definition enoent (path : jsstring) : Error :=
  mkError (js "Error")
    (js "ENOENT: no such file or directory, open '" ++ path ++ js "'").

(** [await fs.readJSON(path)] on a file *)
Definition read_file {A} (path : jsstring) (f : file A) : M A :=
  match f with
  | Missing => throw (enoent path)
  | Corrupt e => throw e
  | Holds a => ret a
  end.

(** [await fs.writeJSON(CONFIG.LOG_FILE, l, { spaces: 2 })]: the file now
    holds [l], whatever it held.  Writing is taken to succeed. *)
Definition write_log (l : Log) : M unit :=
  fun s => (Ret tt,
            mkState (Holds l) (sends s) (ticks s) (trace s ++ [WriteLog l])
                    (log s) (successCount s) (failCount s)).

(** [await transporter.sendMail(options)] *)
Definition sendMail (env : Env) (t : Transporter) (o : MailOptions) : M unit :=
  fun s =>
    let r := smtp env (sends s) t o in
    let s' := mkState (log_file s) (S (sends s)) (ticks s)
                      (trace s ++ [SendMail t o r])
                      (log s) (successCount s) (failCount s) in
    match r with
    | None => (Ret tt, s')
    | Some e => (Throw e, s')
    end.

(** [log = ...] *)
Definition set_log (l : Log) : M unit :=
  fun s => (Ret tt,
            mkState (log_file s) (sends s) (ticks s) (trace s) l
                    (successCount s) (failCount s)).

(** [log.sent.push(entry)] *)
Definition push_sent (e : LogEntry) : M unit :=
  fun s => (Ret tt,
            mkState (log_file s) (sends s) (ticks s) (trace s)
                    (mkLog (sent (log s) ++ [e]) (failed (log s)))
                    (successCount s) (failCount s)).

(** [log.failed.push(entry)] *)
Definition push_failed (e : LogEntry) : M unit :=
  fun s => (Ret tt,
            mkState (log_file s) (sends s) (ticks s) (trace s)
                    (mkLog (sent (log s)) (failed (log s) ++ [e]))
                    (successCount s) (failCount s)).

(** [successCount++] *)
Definition incr_success : M unit :=
  fun s => (Ret tt,
            mkState (log_file s) (sends s) (ticks s) (trace s) (log s)
                    (S (successCount s)) (failCount s)).

(** [failCount++] *)
Definition incr_fail : M unit :=
  fun s => (Ret tt,
            mkState (log_file s) (sends s) (ticks s) (trace s) (log s)
                    (successCount s) (S (failCount s))).

(** [let successCount = 0; let failCount = 0;] *)
Definition reset_counts : M unit :=
  fun s => (Ret tt,
            mkState (log_file s) (sends s) (ticks s) (trace s) (log s) 0 0).

(** [if (c) { m }] *)
Definition when (c : bool) (m : M unit) : M unit := if c then m else ret tt.

(** [for (let i = start; ...; i++) { body i items[i] }], over what is left
    of the array *)
Fixpoint for_each {A} (body : nat -> A -> M unit) (i : nat) (items : list A)
  : M unit :=
  match items with
  | [] => ret tt
  | x :: rest => body i x ;; for_each body (S i) rest
  end.

(** [new Set(log.sent.map(e => e.email))] *)
Definition sent_addresses (l : Log) : gset jsval :=
  list_to_set (entry_email <$> sent l).

(** [argv.includes(flag)] *)
Definition has_flag (argv : list jsstring) (flag : jsstring) : bool :=
  bool_decide (flag ∈ argv).

End Sys.
Export Sys.
Local Open Scope js_scope.

(** ** The simplified variant: [send_bulk_intern_emails.js] *)

Module Simplified.

Module CONFIG.
Definition DELAY_MINUTES : N := 1.
Definition CV_PATH : jsstring := js "./test_cv.pdf".
Definition COMPANIES_JSON : jsstring := js "./emails/emails.json".
Definition LOG_FILE : jsstring := js "./emails/sent_emails_log.json".
End CONFIG.

(** What [createEmail] returns. *)
Record Email := mkEmail { subject : jsstring; body : jsstring }.

(** The greeting [createEmail] settles on, from the cleaned name. *)
Definition greeting (name companyName : jsval) : jsstring :=
  if truthy name && strict_ne name (JStr (js "N/A")) then
    js "Dear " ++ to_string name
  else if truthy companyName && strict_ne companyName (JStr (js "N/A")) then
    js "Dear " ++ to_string companyName ++ js " team"
  else
    js "Dear Hiring Manager".

(** The template after the greeting. *)
Definition letter : jsstring := js ",

I am a full-stack developer looking for an internship opportunity.

I have experience with React.js, Node.js, and modern web development. I am motivated to learn and contribute to your team.

Please find my CV attached.

Best regards".

Definition createEmail (founderName companyName : jsval) : res Email :=
  match opt_replace_trim founderName with
  | Val name =>
      Val (mkEmail (js "Internship Application - Full Stack Developer")
                   (greeting name companyName ++ letter))
  | Err e => Err e
  end.

(** The filter callback of [sendBulkEmails].  [&&] stops at the first
    falsy operand, so [includes] is only asked of a non-empty string. *)
Definition wanted (alreadySent : gset jsval) (c : Contact) : bool :=
  let email := or_else (Sys.email c) (EntrepriseContactEmail c) in
  truthy email
  && (strict_ne email (JStr (js "N/A"))
  && (negb (bool_decide (email ∈ alreadySent))
  && match email with JStr s => includes s 64 | _ => false end)).

Section WithEnv.
Context (env : Env).

Definition createTransport : Transporter :=
  mkTransporter (GMAIL_USER env) (GMAIL_APP_PASSWORD env).

Definition sendEmail (to founderName companyName : jsval) : M unit :=
  email <- lift (createEmail founderName companyName) ;;
  let transporter := createTransport in
  let options :=
    mkMail (GMAIL_USER env) to (subject email) (body email)
           (match cv_file env with
            | Some _ => [ByPath CONFIG.CV_PATH]
            | None => []
            end) in
  sendMail env transporter options.

Definition loadLog : M Log :=
  there <- log_exists ;;
  if there then f <- get log_file ;; read_file CONFIG.LOG_FILE f
  else ret empty_log.

(** [saveLog(log)] *)
Definition saveLog : M unit := l <- get log ;; write_log l.

Definition sleep (minutes : N) : M unit := sleep_ms (minutes * 60000).

(** The body of the loop of [sendBulkEmails], for [toSend[i]] of [n]. *)
Definition attempt (n i : nat) (company : Contact) : M unit :=
  let email := or_else (Sys.email company) (EntrepriseContactEmail company) in
  let companyName :=
    or_else (Sys.companyName company) (EntrepriseName company) in
  let founderName :=
    or_else (Sys.founderName company) (EntrepriseContactName company) in
  try_catch
    (console (LProgress (i + 1) n companyName email) ;;
     sendEmail email founderName companyName ;;
     t <- now env ;;
     push_sent (mkEntry email companyName (JStr t) JUndefined JUndefined) ;;
     console LSent ;;
     when (i <? n - 1)%nat
       (console (LWaiting CONFIG.DELAY_MINUTES) ;;
        sleep CONFIG.DELAY_MINUTES))
    (fun error =>
       console (LFailed (message error)) ;;
       t <- now env ;;
       push_failed
         (mkEntry email companyName (JStr t) JUndefined
                  (JStr (message error)))) ;;
  saveLog.

Definition sendBulkEmails : M unit :=
  companies <- read_file CONFIG.COMPANIES_JSON (companies_file env) ;;
  l <- loadLog ;;
  set_log l ;;
  let alreadySent := sent_addresses l in
  let toSend := List.filter (wanted alreadySent) companies in
  console (LSendingTo (length toSend)) ;;
  for_each (attempt (length toSend)) 0 toSend ;;
  l' <- get log ;;
  console (LTotals (length (sent l')) (length (failed l'))).

Definition showHelp : M unit := console LHelp.

(** The top level of the script, with [argv] for [process.argv]. *)
Definition main (argv : list jsstring) : M unit :=
  let args := drop 2 argv in
  if has_flag args (js "--help") || has_flag args (js "-h") then showHelp
  else sendBulkEmails.

End WithEnv.

End Simplified.

(** ** The extended variant *)

Module Extended.

Module CONFIG.
Definition DELAY_BETWEEN_EMAILS : N := 120000 / 2.
Definition CV_PATH : jsstring :=
  js "/home/xylar-99/Desktop/data/enginner_cv/Abdelbassat_Quaoubai_FullStack_Engineer_CV.pdf".
Definition COMPANIES_JSON : jsstring := js "./emails/emails.json".
Definition LOG_FILE : jsstring := js "./emails/sent_emails_log.json".
Definition YOUR_NAME : jsstring := js "Abdelbassat Quaoubai".
Definition YOUR_PHONE : jsstring := js "+212 715 822 574".
Definition YOUR_GITHUB : jsstring := js "https://github.com/xylar-99".
Definition YOUR_SCHOOL : jsstring := js "1337".
End CONFIG.

(** [path.basename(CONFIG.CV_PATH)] *)
Definition cv_basename : jsstring :=
  js "Abdelbassat_Quaoubai_FullStack_Engineer_CV.pdf".

(** [Math.round(a / b)] for non-negative integers, [b] positive. *)
Definition round_div (a b : N) : N := (2 * a + b) / (2 * b).

Definition missing_credentials : Error :=
  mkError (js "Error")
    (js "Missing GMAIL_USER or GMAIL_APP_PASSWORD in environment variables or .env file").

Definition getEmailSubject : jsstring :=
  js "Internship Application: Fullstack / Web Development Intern Position".

(** The greeting [createPersonalizedEmail] settles on, from the cleaned
    name. *)
Definition greeting (cleanName companyName : jsval) : jsstring :=
  if truthy cleanName && strict_ne cleanName (JStr (js "N/A")) then
    js "Dear " ++ to_string cleanName
  else if truthy companyName && strict_ne companyName (JStr (js "N/A")) then
    js "Dear " ++ to_string companyName ++ js " team"
  else
    js "Dear Hiring Manager".

(** The template after the greeting. *)
Definition letter : jsstring := js ",

My name is xylaaaaaaaaaaaaa Quaoubai, a full-stack development student at 1337. I am looking for a Web Development / Fullstack internship.

I work with React.js for frontend and NestJS + Fastify for backend. I can build APIs, authentication systems, dashboards, and full web applications. I enjoy writing clean code, solving problems, and learning new tools quickly.

I am motivated, serious, and able to work on real projects. I have attached my resume so you can see my skills and previous work.

Thank you for taking the time to read my message.  
I hope to get the chance to join your team and contribute.

Best regards,  
Abdelbassat Quaoubai  
+212 715 822 574  
GitHub: https://github.com/xylar-99".

Definition createPersonalizedEmail (founderName companyName : jsval)
  : res jsstring :=
  match replace_trim founderName with
  | Val cleanName => Val (greeting cleanName companyName ++ letter)
  | Err e => Err e
  end.

(** The filter callback of [sendBulkEmails]. *)
Definition wanted (alreadySent : gset jsval) (c : Contact) : bool :=
  truthy (Sys.email c)
  && (strict_ne (Sys.email c) (JStr (js "N/A"))
  && (negb (bool_decide (Sys.email c ∈ alreadySent))
  && match Sys.email c with JStr s => includes s 64 | _ => false end)).

(** What [parseArgs] returns. *)
Record Args := mkArgs {
  arg_to : jsval;
  arg_companyName : jsstring;
  arg_founderName : jsstring;
  arg_help : bool
}.

(** [arg.startsWith(prefix)], with [arg.slice(prefix.length)] when it
    does. *)
Fixpoint after_prefix (prefix arg : jsstring) : option jsstring :=
  match prefix, arg with
  | [], _ => Some arg
  | p :: prefix', c :: arg' =>
      if p =? c then after_prefix prefix' arg' else None
  | _ :: _, [] => None
  end.

(** One turn of the loop of [parseArgs]. *)
Definition parseArg (r : Args) (arg : jsstring) : Args :=
  if bool_decide (arg = js "--help") || bool_decide (arg = js "-h") then
    mkArgs (arg_to r) (arg_companyName r) (arg_founderName r) true
  else match after_prefix (js "--to=") arg with
  | Some v => mkArgs (JStr v) (arg_companyName r) (arg_founderName r) (arg_help r)
  | None =>
  match after_prefix (js "--name=") arg with
  | Some v => mkArgs (arg_to r) v (arg_founderName r) (arg_help r)
  | None =>
  match after_prefix (js "--founder=") arg with
  | Some v => mkArgs (arg_to r) (arg_companyName r) v (arg_help r)
  | None => r
  end end end.

Definition parseArgs (argv : list jsstring) : Args :=
  fold_left parseArg argv (mkArgs JNull [] [] false).

Section WithEnv.
Context (env : Env).

Definition createTransport : M Transporter :=
  let user := GMAIL_USER env in
  let pass := GMAIL_APP_PASSWORD env in
  if negb (truthy user) || negb (truthy pass) then throw missing_credentials
  else ret (mkTransporter user pass).

Definition sendEmail (to founderName companyName : jsval) : M unit :=
  let subject := getEmailSubject in
  text <- lift (createPersonalizedEmail founderName companyName) ;;
  transporter <- createTransport ;;
  attachments <-
    match cv_file env with
    | Some content => ret [ByContent cv_basename content]
    | None => console (XWarnCV CONFIG.CV_PATH) ;; ret []
    end ;;
  sendMail env transporter
    (mkMail (GMAIL_USER env) to subject text attachments).

Definition loadSentLog : M Log :=
  found <-
    try_catch
      (there <- log_exists ;;
       if there then
         f <- get log_file ;; l <- read_file CONFIG.LOG_FILE f ;; ret (Some l)
       else ret None)
      (fun error => console (XWarnLog (message error)) ;; ret None) ;;
  match found with
  | Some l => ret l
  | None => ret empty_log
  end.

(** [saveSentLog(log)] *)
Definition saveSentLog : M unit := l <- get log ;; write_log l.

(** [addToLog(log, email, companyName, status, error)], [None] for the
    default [null] of [error]. *)
Definition addToLog (email companyName : jsval) (status : jsstring)
    (error : option Error) : M unit :=
  t <- now env ;;
  let entry :=
    mkEntry email companyName (JStr t) (JStr status)
            (match error with Some e => JStr (message e) | None => JNull end) in
  (if bool_decide (status = js "success") then push_sent entry
   else push_failed entry) ;;
  saveSentLog.

Definition sleep (ms : N) : M unit := sleep_ms ms.

(** The body of the loop of [sendBulkEmails], for [toSend[i]] of [n]. *)
Definition attempt (n i : nat) (company : Contact) : M unit :=
  try_catch
    (console (XSendingTo (i + 1) n (Sys.companyName company)) ;;
     console (XEmail (Sys.email company)) ;;
     console (XContact (Sys.founderName company)) ;;
     sendEmail (Sys.email company) (Sys.founderName company)
               (Sys.companyName company) ;;
     addToLog (Sys.email company) (Sys.companyName company)
              (js "success") None ;;
     incr_success ;;
     console XSentOk ;;
     when (i <? n - 1)%nat
       (let delayMinutes := round_div CONFIG.DELAY_BETWEEN_EMAILS 60000 in
        console (XWaiting delayMinutes) ;;
        sleep CONFIG.DELAY_BETWEEN_EMAILS))
    (fun error =>
       console (XFailed (message error)) ;;
       addToLog (Sys.email company) (Sys.companyName company)
                (js "failed") (Some error) ;;
       incr_fail ;;
       when (i <? n - 1)%nat (sleep CONFIG.DELAY_BETWEEN_EMAILS)).

Definition sendBulkEmails : M unit :=
  console XStarting ;;
  companies <-
    try_catch
      (cs <- read_file CONFIG.COMPANIES_JSON (companies_file env) ;;
       console (XLoaded (length cs)) ;;
       ret cs)
      (fun error => console (XLoadError (message error)) ;; process_exit 1) ;;
  l <- loadSentLog ;;
  set_log l ;;
  let alreadySent := sent_addresses l in
  console (XAlready (size alreadySent)) ;;
  let toSend := List.filter (wanted alreadySent) companies in
  console (XWillSend (length toSend)) ;;
  console (XEstimated
             (round_div (N.of_nat (length toSend) * CONFIG.DELAY_BETWEEN_EMAILS)
                        60000)) ;;
  if bool_decide (length toSend = 0%nat) then console XNoNew
  else
    console XPreviewHead ;;
    for_each
      (fun i c => console (XPreview (i + 1) (Sys.companyName c) (Sys.email c)))
      0 (take 5 toSend) ;;
    console XBlank ;;
    reset_counts ;;
    for_each (attempt (length toSend)) 0 toSend ;;
    successCount <- get successCount ;;
    failCount <- get failCount ;;
    console XRule ;;
    console XSummaryHead ;;
    console XRule ;;
    console (XSuccessCount successCount) ;;
    console (XFailCount failCount) ;;
    console (XTotal (successCount + failCount)) ;;
    console (XLogSaved CONFIG.LOG_FILE) ;;
    console XRule.

Definition sendSingleEmail (email : jsval) (companyName founderName : jsstring)
  : M unit :=
  console (XSingle email) ;;
  try_catch
    (sendEmail email (JStr founderName) (JStr companyName) ;;
     console (XSingleOk email))
    (fun error => console (XSingleFail (message error)) ;; process_exit 1).

Definition printUsage : M unit := console XUsage.

(** The top level of the script, with [argv] for [process.argv]. *)
Definition main (argv : list jsstring) : M unit :=
  let args := parseArgs (drop 2 argv) in
  (if arg_help args then printUsage ;; process_exit 0 else ret tt) ;;
  if truthy (arg_to args) then
    sendSingleEmail (arg_to args) (arg_companyName args) (arg_founderName args)
  else sendBulkEmails.

End WithEnv.

End Extended.

(** ** What the specification says, in its own words *)

Module Spec.

(** Lower case of an ASCII letter. *)
Definition lower (c : N) : N :=
  if (65 <=? c) && (c <=? 90) then c + 32 else c.

(** The same code units, up to the case of ASCII letters. *)
Definition same_ignoring_case (a b : jsstring) : Prop :=
  lower <$> a = lower <$> b.

#[global] Instance same_ignoring_case_dec a b :
  Decision (same_ignoring_case a b).
Proof. unfold same_ignoring_case. apply _. Defined.

(** The fixed set of honorific tokens. *)
Definition titles : list jsstring :=
  [js "Mr."; js "Mrs."; js "Ms."; js "Dr."; js "M."; js "Mme."].

(** [f] starts with the token [h], in any case. *)
Definition has_title (h f : jsstring) : bool :=
  bool_decide (same_ignoring_case (take (length h) f) h).

(** Strip one leading honorific token, if there is one. *)
Definition strip_one_title (f : jsstring) : jsstring :=
  match List.find (fun h => has_title h f) titles with
  | Some h => drop (length h) f
  | None => f
  end.

(** Name cleaning: strip the token, then trim white space. *)
Definition cleaned_name (f : jsstring) : jsstring := trim (strip_one_title f).

(** A value that is there: a non-empty string. *)
Definition present (v : jsval) : option jsstring :=
  match v with
  | JStr (c :: s) => Some (c :: s)
  | _ => None
  end.

(** The greeting when there is no usable name: by company, else the
    generic one. *)
Definition fallback_greeting (companyName : jsval) : jsstring :=
  match present companyName with
  | Some c =>
      if bool_decide (c ≠ js "N/A") then js "Dear " ++ c ++ js " team"
      else js "Dear Hiring Manager"
  | None => js "Dear Hiring Manager"
  end.

(** Greeting selection, in priority order. *)
Definition greeting_of (name : jsstring) (companyName : jsval) : jsstring :=
  if bool_decide (name ≠ [] ∧ name ≠ js "N/A") then js "Dear " ++ name
  else fallback_greeting companyName.

(** The first of the candidates that is non-empty. *)
Fixpoint first_non_empty (candidates : list jsval) : option jsstring :=
  match candidates with
  | [] => None
  | v :: rest =>
      match present v with
      | Some s => Some s
      | None => first_non_empty rest
      end
  end.

(** A value resolved from candidates: the first of them that is
    non-empty, and nothing that is present when none of them is. *)
Definition resolves (candidates : list jsval) (v : jsval) : Prop :=
  match first_non_empty candidates with
  | Some s => v = JStr s
  | None => present v = None
  end.

(** A fatal end of a run: an error nobody caught, or a non-zero exit
    status. *)
Definition fatal {A} (r : outcome A) : Prop :=
  match r with
  | Ret _ => False
  | Throw _ => True
  | Exit c => c ≠ 0%Z
  end.

End Spec.

(** ** Reading a trace *)

Module Trace.

(** The recipients of the [sendMail] calls, in order. *)
Definition recipients (tr : list event) : list jsval :=
  omap (fun e => match e with SendMail _ o _ => Some (mail_to o) | _ => None end)
       tr.

(** The answers of the provider, in order. *)
Definition answers (tr : list event) : list (option Error) :=
  omap (fun e => match e with SendMail _ _ r => Some r | _ => None end) tr.

(** The pauses, in order, each with its length in milliseconds. *)
Definition sleeps (tr : list event) : list N :=
  omap (fun e => match e with Sleep ms => Some ms | _ => None end) tr.

(** The lines on the console, in order. *)
Definition lines (tr : list event) : list line :=
  omap (fun e => match e with Console l => Some l | _ => None end) tr.

(** The trace in outline: who was written to and whether the provider
    accepted, how many entries the two sequences of a written log had, how
    long a pause was. *)
Inductive step :=
| Mailed (to : jsval) (accepted : bool)
| Wrote (nsent nfailed : nat)
| Paused (ms : N).

Definition outline (tr : list event) : list step :=
  omap (fun e =>
          match e with
          | Console _ => None
          | SendMail _ o r =>
              Some (Mailed (mail_to o)
                           (match r with None => true | Some _ => false end))
          | WriteLog l => Some (Wrote (length (sent l)) (length (failed l)))
          | Sleep ms => Some (Paused ms)
          end)
       tr.

(** What the log file holds at the start of each pause, when it held [d]
    before the trace. *)
Fixpoint disk_at_sleeps (d : file Log) (tr : list event) : list (file Log) :=
  match tr with
  | [] => []
  | WriteLog l :: tr' => disk_at_sleeps (Holds l) tr'
  | Sleep _ :: tr' => d :: disk_at_sleeps d tr'
  | _ :: tr' => disk_at_sleeps d tr'
  end.

(** Pacing: [pace hot tr] follows the trace with [hot] telling whether a
    [sendMail] call happened since the last pause; it is [None] as soon
    as a second call comes with no pause in between. *)
Fixpoint pace (hot : bool) (tr : list event) : option bool :=
  match tr with
  | [] => Some hot
  | SendMail _ _ _ :: tr' => if hot then None else pace true tr'
  | Sleep _ :: tr' => pace false tr'
  | _ :: tr' => pace hot tr'
  end.

(** Durability through the pauses: [settled dirty tr] follows the trace
    with [dirty] telling whether a [sendMail] call has returned whose
    outcome no later write of the log file covers; it is [None] as soon as
    the script pauses in that condition. *)
Fixpoint settled (dirty : bool) (tr : list event) : option bool :=
  match tr with
  | [] => Some dirty
  | SendMail _ _ _ :: tr' => settled true tr'
  | WriteLog _ :: tr' => settled false tr'
  | Sleep _ :: tr' => if dirty then None else settled dirty tr'
  | Console _ :: tr' => settled dirty tr'
  end.

(** A stretch of console lines only. *)
Definition quiet (tr : list event) : Prop :=
  Forall (fun e => match e with Console _ => True | _ => False end) tr.

(** How many messages the provider accepted, and how many it rejected. *)
Definition delivered (tr : list event) : nat :=
  length (List.filter (fun r => match r with None => true | Some _ => false end)
                      (answers tr)).
Definition rejected (tr : list event) : nat :=
  length (List.filter (fun r => match r with None => false | Some _ => true end)
                      (answers tr)).

End Trace.

(** ** Derived notions used to state the properties *)

Module Derived.

(** The log a file stands for when it can be loaded: what it holds, or
    the empty default when it is not there. *)
Definition loaded (f : file Log) : Log :=
  match f with
  | Holds l => l
  | _ => empty_log
  end.

(** [i < n - 1]: contact [i] of [n] is not the last one. *)
Definition not_last (n i : nat) : bool := (i <? n - 1)%nat.

End Derived.

Module SimplifiedDerived.
Import Simplified Derived.

(** The three values the loop resolves for a contact. *)
Definition address (c : Contact) : jsval :=
  or_else (Sys.email c) (EntrepriseContactEmail c).
Definition company (c : Contact) : jsval :=
  or_else (Sys.companyName c) (EntrepriseName c).
Definition founder (c : Contact) : jsval :=
  or_else (Sys.founderName c) (EntrepriseContactName c).

(** The name after cleaning, as [createEmail] computes it. *)
Definition cleaned (f : jsval) : jsval :=
  match f with
  | JStr s => JStr (trim (strip_title s))
  | _ => JUndefined
  end.

(** The message [sendEmail] hands to the transport for a contact. *)
Definition options (env : Env) (c : Contact) : MailOptions :=
  mkMail (GMAIL_USER env) (address c)
    (js "Internship Application - Full Stack Developer")
    (greeting (cleaned (founder c)) (company c) ++ letter)
    (match cv_file env with
     | Some _ => [ByPath CONFIG.CV_PATH]
     | None => []
     end).

(** The entries the loop pushes. *)
Definition sent_entry (c : Contact) (t : jsstring) : LogEntry :=
  mkEntry (address c) (company c) (JStr t) JUndefined JUndefined.
Definition failed_entry (c : Contact) (t : jsstring) (e : Error) : LogEntry :=
  mkEntry (address c) (company c) (JStr t) JUndefined (JStr (message e)).

(** The entries a run adds, where [calls] is the number of transport
    calls of the run.  An entry of the sent sequence is the one the loop
    makes for a contact of the list whose message the provider accepted at
    one of the calls, with a reading of the clock: no status property and
    no error property.  An entry of the failed sequence is the one the
    loop makes for a contact of the list whose message the provider
    rejected at one of the calls, with the message of that error and a
    reading of the clock: no status property. *)
Definition sent_shape (env : Env) (cs : list Contact) (calls : nat)
    (e : LogEntry) : Prop :=
  exists (c : Contact) (n k : nat),
    c ∈ cs /\ (n < calls)%nat
    /\ smtp env n (createTransport env) (options env c) = None
    /\ e = sent_entry c (clock env k).
Definition failed_shape (env : Env) (cs : list Contact) (calls : nat)
    (e : LogEntry) : Prop :=
  exists (c : Contact) (n k : nat) (err : Error),
    c ∈ cs /\ (n < calls)%nat
    /\ smtp env n (createTransport env) (options env c) = Some err
    /\ e = failed_entry c (clock env k) err.

(** The pause after a delivered message that is not the last. *)
Definition pause (n i : nat) : list event :=
  if not_last n i then [Console (LWaiting 1); Sleep 60000] else [].

(** The contacts a run attempts, for a contact list and a log file. *)
Definition toSend (cs : list Contact) (f : file Log) : list Contact :=
  List.filter (wanted (sent_addresses (loaded f))) cs.

(** The state in which the loop starts. *)
Definition at_loop (cs : list Contact) (f : file Log) : State :=
  mkState f 0 0 [Console (LSendingTo (length (toSend cs f)))] (loaded f) 0 0.


(** One turn of the loop, as a relation between the state before and the
    state after: the provider accepts the message, or rejects it. *)
Inductive stepped (env : Env) (n i : nat) (c : Contact) (s : State)
  : State -> Prop :=
| stepped_sent :
    smtp env (sends s) (createTransport env) (options env c) = None ->
    let l := mkLog (sent (log s) ++ [sent_entry c (clock env (ticks s))])
                   (failed (log s)) in
    stepped env n i c s
      (mkState (Holds l) (S (sends s)) (S (ticks s))
         (trace s ++ [Console (LProgress (i + 1) n (company c) (address c));
                      SendMail (createTransport env) (options env c) None;
                      Console LSent] ++ pause n i ++ [WriteLog l])
         l (successCount s) (failCount s))
| stepped_failed (e : Error) :
    smtp env (sends s) (createTransport env) (options env c) = Some e ->
    let l := mkLog (sent (log s))
                   (failed (log s) ++ [failed_entry c (clock env (ticks s)) e]) in
    stepped env n i c s
      (mkState (Holds l) (S (sends s)) (S (ticks s))
         (trace s ++ [Console (LProgress (i + 1) n (company c) (address c));
                      SendMail (createTransport env) (options env c) (Some e);
                      Console (LFailed (message e)); WriteLog l])
         l (successCount s) (failCount s)).

End SimplifiedDerived.

Module ExtendedDerived.
Import Extended Derived.

(** What [sendEmail] gets to before it calls the transport: the error
    thrown by the composer or by [createTransport], or the transporter
    and the message. *)
Definition prepared (env : Env) (c : Contact)
  : Error + Transporter * MailOptions :=
  match createPersonalizedEmail (Sys.founderName c) (Sys.companyName c) with
  | Err e => inl e
  | Val text =>
      if negb (truthy (GMAIL_USER env)) || negb (truthy (GMAIL_APP_PASSWORD env))
      then inl missing_credentials
      else inr (mkTransporter (GMAIL_USER env) (GMAIL_APP_PASSWORD env),
                mkMail (GMAIL_USER env) (Sys.email c) getEmailSubject text
                  (match cv_file env with
                   | Some content => [ByContent cv_basename content]
                   | None => []
                   end))
  end.

(** The warning about the attachment, when the file is not there. *)
Definition cv_warning (env : Env) : list event :=
  match cv_file env with
  | Some _ => []
  | None => [Console (XWarnCV CONFIG.CV_PATH)]
  end.

(** The three lines that open an attempt. *)
Definition opening (n i : nat) (c : Contact) : list event :=
  [Console (XSendingTo (i + 1) n (Sys.companyName c));
   Console (XEmail (Sys.email c));
   Console (XContact (Sys.founderName c))].

(** The entries [addToLog] pushes. *)
Definition sent_entry (c : Contact) (t : jsstring) : LogEntry :=
  mkEntry (Sys.email c) (Sys.companyName c) (JStr t) (JStr (js "success")) JNull.
Definition failed_entry (c : Contact) (t : jsstring) (e : Error) : LogEntry :=
  mkEntry (Sys.email c) (Sys.companyName c) (JStr t) (JStr (js "failed"))
          (JStr (message e)).

(** The error an attempt for a contact ends with, in a run of [calls]
    transport calls: the one the composer or [createTransport] throws, or
    the one the provider rejects the contact's message with at one of the
    calls. *)
Definition raised (env : Env) (calls : nat) (c : Contact) (err : Error) : Prop :=
  prepared env c = inl err
  \/ exists (n : nat) (t : Transporter) (o : MailOptions),
       (n < calls)%nat /\ prepared env c = inr (t, o)
       /\ smtp env n t o = Some err.

(** The entries a run adds, where [calls] is the number of transport
    calls of the run.  An entry of the sent sequence is the one
    [addToLog] makes for a contact of the list whose message the provider
    accepted at one of the calls, with a reading of the clock: status
    "success" and error [null].  An entry of the failed sequence is the
    one [addToLog] makes for a contact of the list and the error the
    attempt for it ended with, with a reading of the clock: status
    "failed" and the message of that error. *)
Definition sent_shape (env : Env) (cs : list Contact) (calls : nat)
    (e : LogEntry) : Prop :=
  exists (c : Contact) (n k : nat) (t : Transporter) (o : MailOptions),
    c ∈ cs /\ (n < calls)%nat
    /\ prepared env c = inr (t, o) /\ smtp env n t o = None
    /\ e = sent_entry c (clock env k).
Definition failed_shape (env : Env) (cs : list Contact) (calls : nat)
    (e : LogEntry) : Prop :=
  exists (c : Contact) (k : nat) (err : Error),
    c ∈ cs /\ raised env calls c err
    /\ e = failed_entry c (clock env k) err.

(** The pauses after an attempt that is not the last. *)
Definition pause_sent (n i : nat) : list event :=
  if not_last n i then [Console (XWaiting 1); Sleep 60000] else [].
Definition pause_failed (n i : nat) : list event :=
  if not_last n i then [Sleep 60000] else [].

(** The contacts a run attempts, for a contact list and a log file. *)
Definition toSend (cs : list Contact) (f : file Log) : list Contact :=
  List.filter (wanted (sent_addresses (loaded f))) cs.

(** What the run prints before the loop. *)
Definition preamble (cs : list Contact) (f : file Log) : list event :=
  [Console XStarting; Console (XLoaded (length cs))]
  ++ match f with
     | Corrupt e => [Console (XWarnLog (message e))]
     | _ => []
     end
  ++ [Console (XAlready (size (sent_addresses (loaded f))));
      Console (XWillSend (length (toSend cs f)));
      Console (XEstimated
                 (round_div (N.of_nat (length (toSend cs f))
                             * CONFIG.DELAY_BETWEEN_EMAILS) 60000))].

(** The preview of the first five contacts. *)
Definition preview (l : list Contact) : list event :=
  [Console XPreviewHead]
  ++ imap (fun i c => Console (XPreview (i + 1) (Sys.companyName c) (Sys.email c)))
          (take 5 l)
  ++ [Console XBlank].

(** The state in which the loop starts. *)
Definition at_loop (cs : list Contact) (f : file Log) : State :=
  mkState f 0 0 (preamble cs f ++ preview (toSend cs f)) (loaded f) 0 0.

(** The summary that closes a run. *)
Definition summary (a b : nat) : list event :=
  [Console XRule; Console XSummaryHead; Console XRule;
   Console (XSuccessCount a); Console (XFailCount b);
   Console (XTotal (a + b)); Console (XLogSaved CONFIG.LOG_FILE);
   Console XRule].


(** One turn of the loop, as a relation between the state before and the
    state after: the attempt ends before the transport is called, the
    provider accepts the message, or the provider rejects it. *)
Inductive stepped (env : Env) (n i : nat) (c : Contact) (s : State)
  : State -> Prop :=
| stepped_refused (e : Error) :
    prepared env c = inl e ->
    let l := mkLog (sent (log s))
                   (failed (log s) ++ [failed_entry c (clock env (ticks s)) e]) in
    stepped env n i c s
      (mkState (Holds l) (sends s) (S (ticks s))
         (trace s ++ opening n i c
            ++ [Console (XFailed (message e)); WriteLog l] ++ pause_failed n i)
         l (successCount s) (S (failCount s)))
| stepped_sent (t : Transporter) (o : MailOptions) :
    prepared env c = inr (t, o) ->
    smtp env (sends s) t o = None ->
    let l := mkLog (sent (log s) ++ [sent_entry c (clock env (ticks s))])
                   (failed (log s)) in
    stepped env n i c s
      (mkState (Holds l) (S (sends s)) (S (ticks s))
         (trace s ++ opening n i c ++ cv_warning env
            ++ [SendMail t o None; WriteLog l; Console XSentOk]
            ++ pause_sent n i)
         l (S (successCount s)) (failCount s))
| stepped_failed (t : Transporter) (o : MailOptions) (e : Error) :
    prepared env c = inr (t, o) ->
    smtp env (sends s) t o = Some e ->
    let l := mkLog (sent (log s))
                   (failed (log s) ++ [failed_entry c (clock env (ticks s)) e]) in
    stepped env n i c s
      (mkState (Holds l) (S (sends s)) (S (ticks s))
         (trace s ++ opening n i c ++ cv_warning env
            ++ [SendMail t o (Some e); Console (XFailed (message e)); WriteLog l]
            ++ pause_failed n i)
         l (successCount s) (S (failCount s))).

End ExtendedDerived.


(** ** Concrete inputs *)

Module Examples.

(** [{email: "a@b.com", companyName: "X", founderName: "Y"}] *)
Definition native : Contact :=
  mkContact (JStr (js "a@b.com")) (JStr (js "X")) (JStr (js "Y"))
            JUndefined JUndefined JUndefined.

(** [{EntrepriseContactEmail: "a@b.com", EntrepriseName: "X",
      EntrepriseContactName: "Y"}] *)
Definition alternate : Contact :=
  mkContact JUndefined JUndefined JUndefined
            (JStr (js "a@b.com")) (JStr (js "X")) (JStr (js "Y")).

(** [{email: "c@d.com", companyName: "Z", founderName: "Dr. Jane Doe"}] *)
Definition second : Contact :=
  mkContact (JStr (js "c@d.com")) (JStr (js "Z")) (JStr (js "Dr. Jane Doe"))
            JUndefined JUndefined JUndefined.

(** [{email: "e@f.com", companyName: "W"}]: no founder name *)
Definition nameless : Contact :=
  mkContact (JStr (js "e@f.com")) (JStr (js "W")) JUndefined
            JUndefined JUndefined JUndefined.

(** A contact with an address and nothing else:
    [{EntrepriseContactEmail: "g@h.com"}]. *)
Definition bare : Contact :=
  mkContact JUndefined JUndefined JUndefined
            (JStr (js "g@h.com")) JUndefined JUndefined.

(** A clock that always reads the same instant. *)
Definition noon_reading : jsstring := js "2026-01-13T12:00:00.000Z".
Definition noon : nat -> jsstring := fun _ => noon_reading.

(** A provider that accepts every message. *)
Definition accepting : nat -> Transporter -> MailOptions -> option Error :=
  fun _ _ _ => None.

(** A provider that rejects the first message and accepts the others. *)
Definition rejecting_first : nat -> Transporter -> MailOptions -> option Error :=
  fun k _ _ =>
    match k with
    | O => Some (mkError (js "Error") (js "Connection timeout"))
    | S _ => None
    end.

(** An environment with both credentials set and no CV file. *)
Definition env_with (cs : list Contact)
    (provider : nat -> Transporter -> MailOptions -> option Error) : Env :=
  mkEnv (JStr (js "me@gmail.com")) (JStr (js "app password")) None
        (Holds cs) provider noon.

(** An environment with no credentials at all. *)
Definition env_without (cs : list Contact) : Env :=
  mkEnv JUndefined JUndefined None (Holds cs) accepting noon.

(** A log of an earlier run that reached [a@b.com]. *)
Definition earlier : Log :=
  mkLog [mkEntry (JStr (js "a@b.com")) (JStr (js "X"))
                 (JStr (js "2026-01-12T09:30:00.000Z")) JUndefined JUndefined]
        [].

(** What the parser raises on a log file that is cut short. *)
Definition cut_short : Error :=
  mkError (js "SyntaxError") (js "Unexpected end of JSON input").

(** [process.argv] of a plain run and of a run with the help flag. *)
Definition plain_argv : list jsstring :=
  [js "node"; js "send_bulk_intern_emails.js"].
Definition help_argv : list jsstring :=
  [js "node"; js "send_bulk_intern_emails.js"; js "--help"].

End Examples.

(** ** The clock: [new Date().toISOString()]

    The time value of a [Date] is a number of milliseconds since the
    epoch; [toISOString] writes it out in UTC.  The definitions follow
    ECMA-262 (Time Values and Time Range, Day Number and Time within Day,
    Year Number, Month Number, Date Number, Hours, Minutes, Second, and
    Milliseconds, Date.prototype.toISOString), with [YearFromTime], which
    the standard defines as the largest year that starts at or before the
    time value, computed from the day number. *)

Module Date.
Local Open Scope Z_scope.

Definition msPerDay : Z := 86400000.
Definition msPerHour : Z := 3600000.
Definition msPerMinute : Z := 60000.
Definition msPerSecond : Z := 1000.

(** A time value a [Date] can hold. *)
Definition time_value (t : Z) : Prop :=
  -8640000000000000 <= t <= 8640000000000000.

Definition Day (t : Z) : Z := t / msPerDay.
Definition TimeWithinDay (t : Z) : Z := t mod msPerDay.

Definition DaysInYear (y : Z) : Z :=
  if negb (y mod 4 =? 0) then 365
  else if negb (y mod 100 =? 0) then 366
  else if negb (y mod 400 =? 0) then 365
  else 366.

Definition DayFromYear (y : Z) : Z :=
  365 * (y - 1970) + (y - 1969) / 4 - (y - 1901) / 100 + (y - 1601) / 400.

Definition TimeFromYear (y : Z) : Z := msPerDay * DayFromYear y.

(** The year a day number falls in: the days since the first of January
    of the year 1 are cut into spans of 400, 100, 4 and 1 years. *)
Definition year_of_day (d : Z) : Z :=
  let n := d + 719162 in
  let n400 := n / 146097 in
  let r := n mod 146097 in
  let n100 := Z.min (r / 36524) 3 in
  let r2 := r - n100 * 36524 in
  let n4 := r2 / 1461 in
  let r3 := r2 mod 1461 in
  let n1 := Z.min (r3 / 365) 3 in
  400 * n400 + 100 * n100 + 4 * n4 + n1 + 1.

Definition YearFromTime (t : Z) : Z := year_of_day (Day t).

Definition InLeapYear (t : Z) : Z :=
  if DaysInYear (YearFromTime t) =? 365 then 0 else 1.

Definition DayWithinYear (t : Z) : Z := Day t - DayFromYear (YearFromTime t).

(** Months are numbered from 0. *)
Definition MonthFromTime (t : Z) : Z :=
  let d := DayWithinYear t in
  let leap := InLeapYear t in
  if d <? 31 then 0
  else if d <? 59 + leap then 1
  else if d <? 90 + leap then 2
  else if d <? 120 + leap then 3
  else if d <? 151 + leap then 4
  else if d <? 181 + leap then 5
  else if d <? 212 + leap then 6
  else if d <? 243 + leap then 7
  else if d <? 273 + leap then 8
  else if d <? 304 + leap then 9
  else if d <? 334 + leap then 10
  else 11.

Definition DateFromTime (t : Z) : Z :=
  let d := DayWithinYear t in
  let leap := InLeapYear t in
  match MonthFromTime t with
  | 0 => d + 1
  | 1 => d - 30
  | 2 => d - 58 - leap
  | 3 => d - 89 - leap
  | 4 => d - 119 - leap
  | 5 => d - 150 - leap
  | 6 => d - 180 - leap
  | 7 => d - 211 - leap
  | 8 => d - 242 - leap
  | 9 => d - 272 - leap
  | 10 => d - 303 - leap
  | _ => d - 333 - leap
  end.

Definition HourFromTime (t : Z) : Z := (t / msPerHour) mod 24.
Definition MinFromTime (t : Z) : Z := (t / msPerMinute) mod 60.
Definition SecFromTime (t : Z) : Z := (t / msPerSecond) mod 60.
Definition msFromTime (t : Z) : Z := t mod msPerSecond.

(** The code unit of the last decimal digit of a number. *)
Definition digit (n : Z) : N := Z.to_N (48 + n mod 10).

(** A number in two, three, four and six decimal digits. *)
Definition digits2 (n : Z) : jsstring := [digit (n / 10); digit n].
Definition digits3 (n : Z) : jsstring := digit (n / 100) :: digits2 n.
Definition digits4 (n : Z) : jsstring := digit (n / 1000) :: digits3 n.
Definition digits6 (n : Z) : jsstring :=
  digit (n / 100000) :: digit (n / 10000) :: digits4 n.

(** The year: four digits from 0 to 9999, a sign and six digits
    otherwise. *)
Definition year_string (y : Z) : jsstring :=
  if (0 <=? y) && (y <=? 9999) then digits4 y
  else (if y <? 0 then 45%N else 43%N) :: digits6 (Z.abs y).

(** [YYYY-MM-DDTHH:mm:ss.sssZ] *)
Definition toISOString (t : Z) : jsstring :=
  year_string (YearFromTime t)
  ++ js "-" ++ digits2 (MonthFromTime t + 1)
  ++ js "-" ++ digits2 (DateFromTime t)
  ++ js "T" ++ digits2 (HourFromTime t)
  ++ js ":" ++ digits2 (MinFromTime t)
  ++ js ":" ++ digits2 (SecFromTime t)
  ++ js "." ++ digits3 (msFromTime t)
  ++ js "Z".

(** The clock of an environment is that of [Date]: every reading is
    [toISOString] of a time value. *)
Definition governs (env : Env) : Prop :=
  forall k : nat, exists t : Z, time_value t /\ clock env k = toISOString t.

End Date.

(** ** ISO 8601, as far as a timestamp goes

    The extended format of a date and time of day in UTC with
    milliseconds, [YYYY-MM-DDTHH:mm:ss.sssZ], the year in four digits, or
    with a sign and six digits. *)

Module Iso8601.

Definition is_digit (c : N) : bool := (48 <=? c) && (c <=? 57).

(** Two digits that read as a number from [lo] to [hi]. *)
Definition field (lo hi : N) (a b : N) : bool :=
  is_digit a && is_digit b
  && (lo <=? 10 * (a - 48) + (b - 48)) && (10 * (a - 48) + (b - 48) <=? hi).

(** What follows the year. *)
Definition after_year (s : jsstring) : bool :=
  match s with
  | [h1; m1; m2; h2; d1; d2; t; H1; H2; c1; M1; M2; c2; S1; S2; p; f1; f2; f3; z] =>
      (h1 =? 45) && field 1 12 m1 m2
      && (h2 =? 45) && field 1 31 d1 d2
      && (t =? 84) && field 0 23 H1 H2
      && (c1 =? 58) && field 0 59 M1 M2
      && (c2 =? 58) && field 0 59 S1 S2
      && (p =? 46) && is_digit f1 && is_digit f2 && is_digit f3
      && (z =? 90)
  | _ => false
  end.

Definition timestamp (s : jsstring) : bool :=
  match s with
  | [] => false
  | c :: s' =>
      if (c =? 43) || (c =? 45) then
        match s' with
        | y1 :: y2 :: y3 :: y4 :: y5 :: y6 :: rest =>
            is_digit y1 && is_digit y2 && is_digit y3 && is_digit y4
            && is_digit y5 && is_digit y6 && after_year rest
        | _ => false
        end
      else
        match s' with
        | y2 :: y3 :: y4 :: rest =>
            is_digit c && is_digit y2 && is_digit y3 && is_digit y4
            && after_year rest
        | _ => false
        end
  end.

(** A value that is such a timestamp. *)
Definition stamped (v : jsval) : Prop :=
  exists s : jsstring, v = JStr s /\ timestamp s = true.

End Iso8601.

(** ** Further notions: the command line, addresses, what a run leaves *)

Module More.

(** [arg === '--help' || arg === '-h'] *)
Definition is_help (arg : jsstring) : bool :=
  bool_decide (arg = js "--help") || bool_decide (arg = js "-h").

(** An argument that no branch of [parseArgs] takes up. *)
Definition unrecognised (arg : jsstring) : Prop :=
  is_help arg = false
  /\ Extended.after_prefix (js "--to=") arg = None
  /\ Extended.after_prefix (js "--name=") arg = None
  /\ Extended.after_prefix (js "--founder=") arg = None.

(** An address the filters let through: a non-empty string other than
    "N/A" with an at sign in it. *)
Definition usable (v : jsval) : Prop :=
  exists s : jsstring, v = JStr s /\ s <> [] /\ s <> js "N/A" /\ 64 ∈ s.

(** The messages handed to the transport, each with the transporter. *)
Definition mails (tr : list event) : list (Transporter * MailOptions) :=
  omap (fun e => match e with SendMail t o _ => Some (t, o) | _ => None end) tr.

(** The logs written to the file, in order. *)
Definition writes (tr : list event) : list Log :=
  omap (fun e => match e with WriteLog l => Some l | _ => None end) tr.

(** How many entries a log has, the two sequences together. *)
Definition entries (l : Log) : nat := (length (sent l) + length (failed l))%nat.

(** The recipients of the messages the provider accepted, and the
    recipients of those it rejected, each with the error. *)
Definition accepted_to (tr : list event) : list jsval :=
  omap (fun e => match e with
                 | SendMail _ o None => Some (mail_to o)
                 | _ => None
                 end) tr.
Definition rejected_to (tr : list event) : list (jsval * Error) :=
  omap (fun e => match e with
                 | SendMail _ o (Some err) => Some (mail_to o, err)
                 | _ => None
                 end) tr.

(** The founder name is a string, so that the composer of the extended
    variant returns. *)
Definition named (c : Contact) : bool :=
  match founderName c with
  | JStr _ => true
  | _ => false
  end.

(** The error with which loading the contact list fails, if it does. *)
Definition load_error (path : jsstring) (f : file (list Contact)) : option Error :=
  match f with
  | Missing => Some (enoent path)
  | Corrupt e => Some e
  | Holds _ => None
  end.

(** How many of the answers are acceptances. *)
Definition acceptances (rs : list (option Error)) : nat :=
  length (List.filter (fun r => match r with None => true | Some _ => false end)
                      rs).

(** What an entry tells of an attempt: the address and the error property;
    and what a rejected message is to be told as. *)
Definition told (e : LogEntry) : jsval * jsval := (entry_email e, entry_error e).
Definition as_told (p : jsval * Error) : jsval * jsval :=
  (fst p, JStr (message (snd p))).

(** The contacts of a list whose address, as [address] reads it, is not
    among the recipients of the accepted messages of a trace. *)
Definition still_open (address : Contact -> jsval) (tr : list event)
    (l : list Contact) : list Contact :=
  List.filter (fun c => negb (bool_decide (address c ∈ accepted_to tr))) l.

(** What the log and the file are after a run that started from the file
    [f]: the file is as it was and the log is what was loaded, or the file
    holds the log; and the sent sequence has grown by the recipients of
    the accepted messages. *)
Definition kept (f : file Log) (s : State) : Prop :=
  (log_file s = f /\ log s = Derived.loaded f \/ log_file s = Holds (log s))
  /\ entry_email <$> sent (log s)
     = (entry_email <$> sent (Derived.loaded f)) ++ accepted_to (trace s).

(** The message of the extended variant for a contact, when the attempt
    gets as far as the transport. *)
Definition made (env : Env) (c : Contact) : option (Transporter * MailOptions) :=
  match ExtendedDerived.prepared env c with
  | inr p => Some p
  | inl _ => None
  end.

(** The message [sendSingleEmail] hands to the transport. *)
Definition single_mail (env : Env) (to : jsval) (cn fn : jsstring) : MailOptions :=
  mkMail (GMAIL_USER env) to Extended.getEmailSubject
    (Extended.greeting (JStr (trim (strip_title fn))) (JStr cn)
       ++ Extended.letter)
    (match cv_file env with
     | Some content => [ByContent Extended.cv_basename content]
     | None => []
     end).

(** Contacts without a usable address:
    [{email: "N/A", companyName: "X"}] and
    [{email: "nobody", companyName: "X"}]. *)
Definition unknown_address : Contact :=
  mkContact (JStr (js "N/A")) (JStr (js "X")) JUndefined
            JUndefined JUndefined JUndefined.
Definition malformed_address : Contact :=
  mkContact (JStr (js "nobody")) (JStr (js "X")) JUndefined
            JUndefined JUndefined JUndefined.

End More.

(** ** Tactics for the monad *)

Arguments js _ : simpl never.
Arguments Simplified.letter : simpl never.
Arguments Extended.letter : simpl never.
Arguments trim _ : simpl never.
Arguments strip_title _ : simpl never.
Arguments N.mul _ _ : simpl nomatch.
Arguments N.div _ _ : simpl nomatch.

(** Unfold the primitives of the monad and compute what is determined. *)
Ltac run :=
  cbv [bind ret throw try_catch lift get emit console now sleep_ms
       log_exists read_file write_log sendMail set_log push_sent push_failed
       incr_success incr_fail reset_counts when process_exit
       log_file sends ticks trace log successCount failCount].

(** Name the components of a state, so that the projections compute. *)
Ltac open_state s :=
  destruct s as [? ? ? ? ? ? ?];
  cbn [log_file sends ticks trace log successCount failCount] in *.

(** Bring a trace built by successive appends into the form [t ++ l]. *)
Ltac flat := rewrite <- ?app_assoc; cbn [app].

(** ** String lemmas: the pattern of the code against the words of the
    specification *)

Section Strings.
Import Spec.

Lemma canon_lower (p c : N) : (canon p =? canon c) = bool_decide (lower c = lower p).
Proof.
  unfold canon, lower.
  repeat match goal with
  | |- context [N.leb ?a ?b] => destruct (N.leb_spec a b)
  end; cbn [andb]; case_bool_decide; try (apply N.eqb_eq; lia); apply N.eqb_neq; lia.
Qed.

Lemma match_prefix_spec (h f : jsstring) :
  match_prefix h f = if has_title h f then Some (drop (length h) f) else None.
Proof.
  unfold has_title, same_ignoring_case.
  revert f. induction h as [|p h IH]; intros f; [done|].
  destruct f as [|c f]; [done|].
  cbn [match_prefix length take drop fmap list_fmap]. rewrite canon_lower, IH.
  repeat case_bool_decide; try done; simplify_eq/=; congruence.
Qed.

Lemma first_match_spec (alts : list jsstring) (f : jsstring) :
  first_match alts f =
  (fun h => drop (length h) f) <$> List.find (fun h => has_title h f) alts.
Proof.
  induction alts as [|a alts IH]; [done|].
  cbn [first_match List.find]. rewrite match_prefix_spec.
  by destruct (has_title a f).
Qed.

Lemma drop_spaces_idemp (s : jsstring) : drop_spaces (drop_spaces s) = drop_spaces s.
Proof.
  induction s as [|c s IH]; [done|].
  cbn [drop_spaces]. destruct (is_space c) eqn:E; [done|].
  cbn [drop_spaces]. by rewrite E.
Qed.

Lemma trim_drop_spaces (s : jsstring) : trim (drop_spaces s) = trim s.
Proof. unfold trim. by rewrite drop_spaces_idemp. Qed.

Lemma clean_spec (f : jsstring) : trim (strip_title f) = cleaned_name f.
Proof.
  unfold strip_title, cleaned_name, strip_one_title.
  change honorifics with titles. rewrite first_match_spec.
  destruct (List.find _ titles); cbn [fmap option_fmap option_map]; [|done].
  apply trim_drop_spaces.
Qed.

Lemma or_else_first (a b : jsval) :
  match first_non_empty [a; b] with
  | Some s => or_else a b = JStr s
  | None => truthy (or_else a b) = false
  end.
Proof.
  unfold or_else.
  destruct a as [| |[|? ?]], b as [| |[|? ?]]; done.
Qed.

End Strings.

(** ** The loop *)

Section Loop.
Context {A : Type} (body : nat -> A -> M unit).

(** A loop whose body keeps an invariant and returns runs to its end and
    keeps the invariant. *)
Lemma for_each_inv (I : nat -> State -> Prop) (items : list A) (i : nat) (s : State) :
  I i s ->
  (forall k x s0, items !! k = Some x -> I (i + k)%nat s0 ->
     exists s1, body (i + k)%nat x s0 = (Ret tt, s1) /\ I (S (i + k)) s1) ->
  exists s', for_each body i items s = (Ret tt, s') /\ I (i + length items)%nat s'.
Proof.
  revert i s. induction items as [|x items IH]; intros i s Hi Hbody.
  - exists s. cbn. by rewrite Nat.add_0_r.
  - destruct (Hbody 0%nat x s) as (s1 & E1 & H1); [done|by rewrite Nat.add_0_r|].
    rewrite Nat.add_0_r in E1, H1.
    destruct (IH (S i) s1 H1) as (s' & E' & H').
    { intros k y s0 Hk. specialize (Hbody (S k) y s0 Hk).
      by rewrite <- Nat.add_succ_comm in Hbody. }
    exists s'. cbn [for_each]. unfold bind at 1. rewrite E1. split; [done|].
    cbn [length]. by rewrite <- Nat.add_succ_comm.
Qed.

End Loop.

Lemma for_each_console {A} (f : nat -> A -> line) (items : list A) (i : nat) (s : State) :
  for_each (fun k x => console (f k x)) i items s =
  (Ret tt, mkState (log_file s) (sends s) (ticks s)
             (trace s ++ imap (fun k x => Console (f (i + k)%nat x)) items)
             (log s) (successCount s) (failCount s)).
Proof.
  revert i s. induction items as [|x items IH]; intros i s.
  - cbn. rewrite app_nil_r. by destruct s.
  - cbn [for_each]. unfold bind at 1. run. rewrite IH. run.
    cbn [imap]. rewrite Nat.add_0_r. flat. open_state s. do 4 f_equal.
    apply imap_ext. intros k y _. cbn. do 2 f_equal. lia.
Qed.

Section SimplifiedFacts.
Import Simplified Derived SimplifiedDerived.

Lemma simplified_createEmail_eq (f c : jsval) :
  createEmail f c =
  Val (mkEmail (js "Internship Application - Full Stack Developer")
               (greeting (cleaned f) c ++ letter)).
Proof. by destruct f. Qed.

Section WithEnv.
Context (env : Env).

(** An attempt the provider accepts. *)
Lemma simplified_attempt_sent (n i : nat) (c : Contact) (s : State) :
  smtp env (sends s) (createTransport env) (options env c) = None ->
  let l := mkLog (sent (log s) ++ [sent_entry c (clock env (ticks s))])
                 (failed (log s)) in
  attempt env n i c s =
  (Ret tt,
   mkState (Holds l) (S (sends s)) (S (ticks s))
     (trace s ++ [Console (LProgress (i + 1) n (company c) (address c));
                  SendMail (createTransport env) (options env c) None;
                  Console LSent] ++ pause n i ++ [WriteLog l])
     l (successCount s) (failCount s)).
Proof.
  intros H. open_state s.
  unfold attempt, sendEmail, saveLog, sleep. rewrite simplified_createEmail_eq.
  run. cbn [subject body].
  fold (address c) (company c) (founder c). fold (options env c).
  rewrite H. unfold pause. fold (not_last n i).
  destruct (not_last n i); flat; reflexivity.
Qed.

(** An attempt the provider rejects. *)
Lemma simplified_attempt_failed (n i : nat) (c : Contact) (s : State) (e : Error) :
  smtp env (sends s) (createTransport env) (options env c) = Some e ->
  let l := mkLog (sent (log s))
                 (failed (log s) ++ [failed_entry c (clock env (ticks s)) e]) in
  attempt env n i c s =
  (Ret tt,
   mkState (Holds l) (S (sends s)) (S (ticks s))
     (trace s ++ [Console (LProgress (i + 1) n (company c) (address c));
                  SendMail (createTransport env) (options env c) (Some e);
                  Console (LFailed (message e)); WriteLog l])
     l (successCount s) (failCount s)).
Proof.
  intros H. open_state s.
  unfold attempt, sendEmail, saveLog. rewrite simplified_createEmail_eq.
  run. cbn [subject body].
  fold (address c) (company c) (founder c). fold (options env c).
  rewrite H. flat. reflexivity.
Qed.

(** Every turn of the loop returns, in one of the two ways. *)
Lemma simplified_attempt_stepped (n i : nat) (c : Contact) (s : State) :
  exists s1, attempt env n i c s = (Ret tt, s1) /\ stepped env n i c s s1.
Proof.
  destruct (smtp env (sends s) (createTransport env) (options env c)) as [e|] eqn:E.
  - eexists. split; [by apply simplified_attempt_failed|by apply stepped_failed].
  - eexists. split; [by apply simplified_attempt_sent|by apply stepped_sent].
Qed.

(** The loop runs to its end and keeps what every turn keeps. *)
Lemma simplified_loop_inv (I : nat -> State -> Prop) (n : nat) (items : list Contact)
    (s : State) :
  I 0%nat s ->
  (forall k c s0 s1, items !! k = Some c -> I k s0 ->
     stepped env n k c s0 s1 -> I (S k) s1) ->
  exists s', for_each (attempt env n) 0 items s = (Ret tt, s')
             /\ I (length items) s'.
Proof.
  intros H0 Hstep.
  apply (for_each_inv (attempt env n) I items 0 s H0).
  intros k c s0 Hk Hi. cbn [Nat.add] in *.
  destruct (simplified_attempt_stepped n k c s0) as (s1 & E & St). eauto.
Qed.

(** The run up to the loop and after it. *)
Lemma simplified_sendBulkEmails_eq (cs : list Contact) (f : file Log) :
  companies_file env = Holds cs ->
  sendBulkEmails env (initial f) =
  match f with
  | Corrupt e => (Throw e, initial f)
  | _ =>
      match for_each (attempt env (length (toSend cs f))) 0 (toSend cs f)
                     (at_loop cs f) with
      | (Ret _, s) =>
          (Ret tt,
           mkState (log_file s) (sends s) (ticks s)
             (trace s ++ [Console (LTotals (length (sent (log s)))
                                           (length (failed (log s))))])
             (log s) (successCount s) (failCount s))
      | (Throw e, s) => (Throw e, s)
      | (Exit k, s) => (Exit k, s)
      end
  end.
Proof.
  intros H. unfold sendBulkEmails, loadLog. rewrite H.
  destruct f as [|e|l]; run; try reflexivity.
Qed.

End WithEnv.

End SimplifiedFacts.

Section ExtendedFacts.
Import Extended Derived ExtendedDerived.

Lemma status_success : bool_decide (js "success" = js "success") = true.
Proof. reflexivity. Qed.

Lemma status_failed : bool_decide (js "failed" = js "success") = false.
Proof. reflexivity. Qed.

Section WithEnv.
Context (env : Env).

Lemma extended_createTransport_eq (s : State) :
  createTransport env s =
  if negb (truthy (GMAIL_USER env)) || negb (truthy (GMAIL_APP_PASSWORD env))
  then (Throw missing_credentials, s)
  else (Ret (mkTransporter (GMAIL_USER env) (GMAIL_APP_PASSWORD env)), s).
Proof. unfold createTransport. by destruct (_ || _). Qed.

Lemma extended_loadSentLog_eq (s : State) :
  loadSentLog s =
  (Ret (loaded (log_file s)),
   match log_file s with
   | Corrupt e =>
       mkState (log_file s) (sends s) (ticks s)
               (trace s ++ [Console (XWarnLog (message e))])
               (log s) (successCount s) (failCount s)
   | _ => s
   end).
Proof. destruct s as [f ? ? ? ? ? ?]. unfold loadSentLog. by destruct f. Qed.

(** An attempt that ends before the transport is called. *)
Lemma extended_attempt_refused (n i : nat) (c : Contact) (s : State) (e : Error) :
  prepared env c = inl e ->
  let l := mkLog (sent (log s))
                 (failed (log s) ++ [failed_entry c (clock env (ticks s)) e]) in
  attempt env n i c s =
  (Ret tt,
   mkState (Holds l) (sends s) (S (ticks s))
     (trace s ++ opening n i c
        ++ [Console (XFailed (message e)); WriteLog l] ++ pause_failed n i)
     l (successCount s) (S (failCount s))).
Proof.
  open_state s.
  unfold prepared, attempt, sendEmail, addToLog, saveSentLog, sleep,
    pause_failed, opening, createTransport.
  rewrite status_success, status_failed. fold (not_last n i).
  destruct (createPersonalizedEmail _ _) as [text|e'].
  - destruct (_ || _); [|done]. intros [= <-].
    destruct (not_last n i); run; flat; reflexivity.
  - intros [= <-]. destruct (not_last n i); run; flat; reflexivity.
Qed.

(** An attempt the provider accepts. *)
Lemma extended_attempt_sent (n i : nat) (c : Contact) (s : State)
    (t : Transporter) (o : MailOptions) :
  prepared env c = inr (t, o) ->
  smtp env (sends s) t o = None ->
  let l := mkLog (sent (log s) ++ [sent_entry c (clock env (ticks s))])
                 (failed (log s)) in
  attempt env n i c s =
  (Ret tt,
   mkState (Holds l) (S (sends s)) (S (ticks s))
     (trace s ++ opening n i c ++ cv_warning env
        ++ [SendMail t o None; WriteLog l; Console XSentOk] ++ pause_sent n i)
     l (S (successCount s)) (failCount s)).
Proof.
  unfold prepared, attempt, sendEmail, addToLog, saveSentLog, sleep,
    pause_sent, opening, cv_warning, createTransport.
  rewrite status_success, status_failed. fold (not_last n i).
  open_state s.
  destruct (createPersonalizedEmail _ _) as [text|e']; [|done].
  destruct (_ || _); [done|]. intros [= <- <-] H.
  destruct (cv_file env); run; rewrite H;
    destruct (not_last n i); flat; reflexivity.
Qed.

(** An attempt the provider rejects. *)
Lemma extended_attempt_failed (n i : nat) (c : Contact) (s : State)
    (t : Transporter) (o : MailOptions) (e : Error) :
  prepared env c = inr (t, o) ->
  smtp env (sends s) t o = Some e ->
  let l := mkLog (sent (log s))
                 (failed (log s) ++ [failed_entry c (clock env (ticks s)) e]) in
  attempt env n i c s =
  (Ret tt,
   mkState (Holds l) (S (sends s)) (S (ticks s))
     (trace s ++ opening n i c ++ cv_warning env
        ++ [SendMail t o (Some e); Console (XFailed (message e)); WriteLog l]
        ++ pause_failed n i)
     l (successCount s) (S (failCount s))).
Proof.
  unfold prepared, attempt, sendEmail, addToLog, saveSentLog, sleep,
    pause_failed, opening, cv_warning, createTransport.
  rewrite status_success, status_failed. fold (not_last n i).
  open_state s.
  destruct (createPersonalizedEmail _ _) as [text|e']; [|done].
  destruct (_ || _); [done|]. intros [= <- <-] H.
  destruct (cv_file env); run; rewrite H;
    destruct (not_last n i); flat; reflexivity.
Qed.

(** Every turn of the loop returns, in one of the three ways. *)
Lemma extended_attempt_stepped (n i : nat) (c : Contact) (s : State) :
  exists s1, attempt env n i c s = (Ret tt, s1) /\ stepped env n i c s s1.
Proof.
  destruct (prepared env c) as [e|[t o]] eqn:P.
  - eexists. split; [by apply extended_attempt_refused|by apply stepped_refused].
  - destruct (smtp env (sends s) t o) as [e|] eqn:E.
    + eexists. split; [by eapply extended_attempt_failed|by eapply stepped_failed].
    + eexists. split; [by eapply extended_attempt_sent|by eapply stepped_sent].
Qed.

(** The loop runs to its end and keeps what every turn keeps. *)
Lemma extended_loop_inv (I : nat -> State -> Prop) (n : nat) (items : list Contact)
    (s : State) :
  I 0%nat s ->
  (forall k c s0 s1, items !! k = Some c -> I k s0 ->
     stepped env n k c s0 s1 -> I (S k) s1) ->
  exists s', for_each (attempt env n) 0 items s = (Ret tt, s')
             /\ I (length items) s'.
Proof.
  intros H0 Hstep.
  apply (for_each_inv (attempt env n) I items 0 s H0).
  intros k c s0 Hk Hi. cbn [Nat.add] in *.
  destruct (extended_attempt_stepped n k c s0) as (s1 & E & St). eauto.
Qed.

(** The run up to the loop and after it. *)
Lemma extended_sendBulkEmails_eq (cs : list Contact) (f : file Log) :
  companies_file env = Holds cs ->
  sendBulkEmails env (initial f) =
  match toSend cs f with
  | [] =>
      (Ret tt,
       mkState f 0 0 (preamble cs f ++ [Console XNoNew]) (loaded f) 0 0)
  | _ :: _ =>
      match for_each (attempt env (length (toSend cs f))) 0 (toSend cs f)
                     (at_loop cs f) with
      | (Ret _, s) =>
          (Ret tt,
           mkState (log_file s) (sends s) (ticks s)
             (trace s ++ summary (successCount s) (failCount s))
             (log s) (successCount s) (failCount s))
      | (Throw e, s) => (Throw e, s)
      | (Exit k, s) => (Exit k, s)
      end
  end.
Proof.
  intros H. unfold sendBulkEmails, initial, loadSentLog. rewrite H.
  unfold at_loop, preamble, preview.
  destruct (toSend cs f) as [|c0 tl] eqn:E; unfold toSend in E.
  - destruct f; run; cbn [loaded] in E; rewrite E; reflexivity.
  - destruct f; run; cbn [loaded] in E; rewrite E.
    all: rewrite bool_decide_eq_false_2 by done.
    all: rewrite (for_each_console
                    (fun i c => XPreview (i + 1) (companyName c) (email c))).
    all: run; flat.
    all: destruct (for_each _ _ _ _) as [[| |] s1]; flat; reflexivity.
Qed.

End WithEnv.
End ExtendedFacts.

(** ** The clock writes ISO 8601 *)

Section Clock.
Import Date Iso8601.
Local Open Scope Z_scope.

(** The year computed from the day number is the one the standard
    defines: it starts at or before the day, and the next one after. *)
Lemma year_of_day_spec (d : Z) :
  DayFromYear (year_of_day d) <= d < DayFromYear (year_of_day d + 1).
Proof.
  unfold DayFromYear, year_of_day. cbv zeta.
  Z.div_mod_to_equations. lia.
Qed.

Lemma DayFromYear_mono (y y' : Z) : y <= y' -> DayFromYear y <= DayFromYear y'.
Proof. unfold DayFromYear. intros H. Z.div_mod_to_equations. lia. Qed.

Lemma YearFromTime_largest (t y : Z) :
  TimeFromYear y <= t <-> y <= YearFromTime t.
Proof.
  unfold TimeFromYear, YearFromTime, Day, msPerDay.
  pose proof (year_of_day_spec (t / 86400000)) as [L U].
  split; intros H.
  - destruct (Z_le_gt_dec y (year_of_day (t / 86400000))) as [|G]; [done|].
    pose proof (DayFromYear_mono (year_of_day (t / 86400000) + 1) y ltac:(lia)).
    Z.div_mod_to_equations. lia.
  - pose proof (DayFromYear_mono y _ H).
    Z.div_mod_to_equations. lia.
Qed.

Lemma DaysInYear_spec (y : Z) :
  DayFromYear (y + 1) - DayFromYear y = DaysInYear y.
Proof.
  unfold DayFromYear, DaysInYear.
  destruct (Z.eqb_spec (y mod 4) 0), (Z.eqb_spec (y mod 100) 0),
    (Z.eqb_spec (y mod 400) 0); cbn [negb]; Z.div_mod_to_equations; lia.
Qed.

Lemma InLeapYear_range (t : Z) : 0 <= InLeapYear t <= 1.
Proof. unfold InLeapYear. destruct (_ =? _); lia. Qed.

Lemma DayWithinYear_range (t : Z) :
  0 <= DayWithinYear t < 365 + InLeapYear t.
Proof.
  unfold DayWithinYear, InLeapYear, YearFromTime.
  pose proof (year_of_day_spec (Day t)) as [L U].
  pose proof (DaysInYear_spec (year_of_day (Day t))) as D.
  destruct (Z.eqb_spec (DaysInYear (year_of_day (Day t))) 365) as [E|NE].
  - lia.
  - assert (DaysInYear (year_of_day (Day t)) = 366); [|lia].
    revert NE. unfold DaysInYear. repeat destruct (negb _); lia.
Qed.

Lemma MonthFromTime_range (t : Z) : 0 <= MonthFromTime t <= 11.
Proof. unfold MonthFromTime. cbv zeta. repeat destruct (_ <? _); lia. Qed.

Lemma DateFromTime_range (t : Z) : 1 <= DateFromTime t <= 31.
Proof.
  pose proof (DayWithinYear_range t). pose proof (InLeapYear_range t).
  unfold DateFromTime, MonthFromTime. cbv zeta.
  repeat match goal with
         | |- context [?a <? ?b] => destruct (Z.ltb_spec a b)
         end; lia.
Qed.

Lemma YearFromTime_range (t : Z) :
  time_value t -> -999999 <= YearFromTime t <= 999999.
Proof.
  unfold time_value, YearFromTime, year_of_day, Day, msPerDay. cbv zeta.
  intros H. Z.div_mod_to_equations. lia.
Qed.

Lemma digit_range (n : Z) : (48 <= digit n <= 57)%N.
Proof. unfold digit. pose proof (Z.mod_pos_bound n 10 ltac:(lia)). lia. Qed.

Lemma is_digit_digit (n : Z) : is_digit (digit n) = true.
Proof.
  unfold is_digit. pose proof (digit_range n).
  apply andb_true_intro. split; apply N.leb_le; lia.
Qed.

Lemma digit_no_sign (n : Z) : (digit n =? 43)%N || (digit n =? 45)%N = false.
Proof.
  pose proof (digit_range n). apply orb_false_intro; apply N.eqb_neq; lia.
Qed.

Lemma field_digits2 (lo hi : N) (n : Z) :
  Z.of_N lo <= n <= Z.of_N hi -> n < 100 ->
  field lo hi (digit (n / 10)) (digit n) = true.
Proof.
  intros B H. unfold field. rewrite !is_digit_digit. cbn [andb].
  assert (E : (10 * (digit (n / 10) - 48) + (digit n - 48))%N = Z.to_N n).
  { unfold digit. Z.div_mod_to_equations. lia. }
  rewrite E. apply andb_true_intro. split; apply N.leb_le; lia.
Qed.

(** What [toISOString] writes is an ISO 8601 timestamp. *)
Lemma toISOString_timestamp (t : Z) :
  time_value t -> timestamp (toISOString t) = true.
Proof.
  intros V.
  pose proof (YearFromTime_range t V) as Y.
  pose proof (MonthFromTime_range t) as Mo.
  pose proof (DateFromTime_range t) as Da.
  assert (A : after_year
                (js "-" ++ digits2 (MonthFromTime t + 1)
                 ++ js "-" ++ digits2 (DateFromTime t)
                 ++ js "T" ++ digits2 (HourFromTime t)
                 ++ js ":" ++ digits2 (MinFromTime t)
                 ++ js ":" ++ digits2 (SecFromTime t)
                 ++ js "." ++ digits3 (msFromTime t)
                 ++ js "Z") = true).
  { change (js "-") with [45%N]. change (js "T") with [84%N].
    change (js ":") with [58%N]. change (js ".") with [46%N].
    change (js "Z") with [90%N].
    unfold digits3, digits2. cbn [app after_year].
    rewrite !N.eqb_refl, !is_digit_digit. cbn [andb].
    rewrite !field_digits2; [done|..];
      unfold HourFromTime, MinFromTime, SecFromTime;
      try (cbn [Z.of_N]; Z.div_mod_to_equations; lia). }
  unfold toISOString, year_string.
  destruct ((0 <=? YearFromTime t) && (YearFromTime t <=? 9999)).
  - unfold digits4, digits3, digits2. cbn [app timestamp].
    rewrite digit_no_sign, !is_digit_digit. cbn [andb]. exact A.
  - unfold digits6, digits4, digits3, digits2. cbn [app].
    destruct (YearFromTime t <? 0); cbn [timestamp N.eqb Pos.eqb orb];
      rewrite !is_digit_digit; cbn [andb]; exact A.
Qed.

(** Under the clock of [Date] every reading is such a timestamp. *)
Lemma governed_stamped (env : Env) (k : nat) :
  governs env -> stamped (JStr (clock env k)).
Proof.
  intros G. destruct (G k) as (t & V & E).
  exists (clock env k). split; [done|]. rewrite E. by apply toISOString_timestamp.
Qed.

(** Readings of [toISOString] at known instants: the epoch, the last
    millisecond before it, a leap day, the two ends of the range of time
    values, and the years 0 and 10000. *)
Lemma toISOString_readings :
  toISOString 0 = js "1970-01-01T00:00:00.000Z"
  /\ toISOString (-1) = js "1969-12-31T23:59:59.999Z"
  /\ toISOString 951782400000 = js "2000-02-29T00:00:00.000Z"
  /\ toISOString 1700000000123 = js "2023-11-14T22:13:20.123Z"
  /\ toISOString 8640000000000000 = js "+275760-09-13T00:00:00.000Z"
  /\ toISOString (-8640000000000000) = js "-271821-04-20T00:00:00.000Z"
  /\ toISOString (-62167219200000) = js "0000-01-01T00:00:00.000Z"
  /\ toISOString 253402300800000 = js "+010000-01-01T00:00:00.000Z".
Proof. vm_compute. repeat split. Qed.

(** The clock of the examples is one of [Date]. *)
Lemma noon_governed (cs : list Contact)
    (provider : nat -> Transporter -> MailOptions -> option Error) :
  governs (Examples.env_with cs provider).
Proof.
  intros k. exists 1768305600000. split; [unfold time_value; lia|].
  vm_compute. reflexivity.
Qed.

End Clock.

(** ** The composer (C8, C10) *)

Section Composer.
Import Spec.

Lemma truthy_present (v : jsval) :
  truthy v = true -> exists s, present v = Some s /\ v = JStr s.
Proof. destruct v as [| |[|x s]]; try done. eauto. Qed.

Lemma falsy_present (v : jsval) : truthy v = false -> present v = None.
Proof. by destruct v as [| |[|x s]]. Qed.

Lemma company_greeting (c : jsval) :
  (if truthy c && strict_ne c (JStr (js "N/A"))
   then js "Dear " ++ to_string c ++ js " team"
   else js "Dear Hiring Manager") = fallback_greeting c.
Proof.
  unfold fallback_greeting, strict_ne.
  destruct (truthy c) eqn:T; cbn [andb].
  - destruct (truthy_present c T) as (s & -> & ->). cbn [to_string].
    repeat case_bool_decide; try done; congruence.
  - by rewrite (falsy_present c T).
Qed.

Lemma name_greeting (name : jsstring) (c : jsval) :
  (if truthy (JStr name) && strict_ne (JStr name) (JStr (js "N/A"))
   then js "Dear " ++ to_string (JStr name)
   else fallback_greeting c) = greeting_of name c.
Proof.
  unfold greeting_of, strict_ne. cbn [to_string].
  destruct name as [|x name]; cbn [truthy andb].
  - rewrite bool_decide_eq_false_2; [done|]. by intros [? _].
  - repeat case_bool_decide; try done.
    + exfalso. apply H0. split; [done|congruence].
    + exfalso. destruct H0 as [_ H0]. apply H0. congruence.
Qed.

Lemma simplified_greeting (f : jsstring) (c : jsval) :
  Simplified.greeting (JStr (trim (strip_title f))) c
  = greeting_of (cleaned_name f) c.
Proof.
  unfold Simplified.greeting. rewrite company_greeting, name_greeting.
  by rewrite clean_spec.
Qed.

Lemma extended_greeting (f : jsstring) (c : jsval) :
  Extended.greeting (JStr (trim (strip_title f))) c
  = greeting_of (cleaned_name f) c.
Proof.
  unfold Extended.greeting. rewrite company_greeting, name_greeting.
  by rewrite clean_spec.
Qed.

Lemma simplified_no_name (c : jsval) :
  Simplified.greeting JUndefined c = fallback_greeting c.
Proof. unfold Simplified.greeting. cbn [truthy andb]. apply company_greeting. Qed.

End Composer.

(** C8.  The composer strips one leading honorific of the fixed set,
    whatever its case, from the founder name and trims white space; the
    greeting is "Dear <name>" when the cleaned name is neither empty nor
    "N/A", else "Dear <company> team" when the company name is present and
    not "N/A", else "Dear Hiring Manager".  Both variants do so, and the
    three examples of the specification come out as stated. *)
Theorem C8_greeting_fallback_chain :
  (forall (f : jsstring) (c : jsval),
     Simplified.createEmail (JStr f) c
     = Val (Simplified.mkEmail
              (js "Internship Application - Full Stack Developer")
              (Spec.greeting_of (Spec.cleaned_name f) c ++ Simplified.letter))
     /\ Extended.createPersonalizedEmail (JStr f) c
        = Val (Spec.greeting_of (Spec.cleaned_name f) c ++ Extended.letter))
  /\ (Simplified.createEmail (JStr (js "Dr. Jane Doe")) (JStr (js "Acme"))
      = Val (Simplified.mkEmail
               (js "Internship Application - Full Stack Developer")
               (js "Dear Jane Doe" ++ Simplified.letter))
      /\ Simplified.createEmail (JStr (js "N/A")) (JStr (js "Acme"))
         = Val (Simplified.mkEmail
                  (js "Internship Application - Full Stack Developer")
                  (js "Dear Acme team" ++ Simplified.letter))
      /\ Simplified.createEmail (JStr (js "N/A")) (JStr (js "N/A"))
         = Val (Simplified.mkEmail
                  (js "Internship Application - Full Stack Developer")
                  (js "Dear Hiring Manager" ++ Simplified.letter)))
  /\ (Extended.createPersonalizedEmail (JStr (js "Dr. Jane Doe")) (JStr (js "Acme"))
      = Val (js "Dear Jane Doe" ++ Extended.letter)
      /\ Extended.createPersonalizedEmail (JStr (js "N/A")) (JStr (js "Acme"))
         = Val (js "Dear Acme team" ++ Extended.letter)
      /\ Extended.createPersonalizedEmail (JStr (js "N/A")) (JStr (js "N/A"))
         = Val (js "Dear Hiring Manager" ++ Extended.letter)).
Proof.
  split; [|split].
  - intros f c. split.
    + unfold Simplified.createEmail. cbn [opt_replace_trim replace_trim].
      by rewrite simplified_greeting.
    + unfold Extended.createPersonalizedEmail. cbn [replace_trim].
      by rewrite extended_greeting.
  - repeat split; vm_compute; reflexivity.
  - repeat split; vm_compute; reflexivity.
Qed.

(** ** Reading a trace: how the readings compose *)

Section TraceFacts.
Import Trace.

Lemma recipients_app (t1 t2 : list event) :
  recipients (t1 ++ t2) = recipients t1 ++ recipients t2.
Proof. apply omap_app. Qed.

Lemma answers_app (t1 t2 : list event) :
  answers (t1 ++ t2) = answers t1 ++ answers t2.
Proof. apply omap_app. Qed.

Lemma sleeps_app (t1 t2 : list event) :
  sleeps (t1 ++ t2) = sleeps t1 ++ sleeps t2.
Proof. apply omap_app. Qed.

Lemma delivered_app (t1 t2 : list event) :
  delivered (t1 ++ t2) = (delivered t1 + delivered t2)%nat.
Proof. unfold delivered. by rewrite answers_app, List.filter_app, length_app. Qed.

Lemma rejected_app (t1 t2 : list event) :
  rejected (t1 ++ t2) = (rejected t1 + rejected t2)%nat.
Proof. unfold rejected. by rewrite answers_app, List.filter_app, length_app. Qed.

Lemma pace_app (hot : bool) (t1 t2 : list event) :
  pace hot (t1 ++ t2) = hot' ← pace hot t1; pace hot' t2.
Proof.
  revert hot. induction t1 as [|[l|t o r|l|ms] t1 IH]; intros hot;
    cbn [app pace]; try done.
  by destruct hot.
Qed.

Lemma settled_app (dirty : bool) (t1 t2 : list event) :
  settled dirty (t1 ++ t2) = dirty' ← settled dirty t1; settled dirty' t2.
Proof.
  revert dirty. induction t1 as [|[l|t o r|l|ms] t1 IH]; intros dirty;
    cbn [app settled]; try done.
  by destruct dirty.
Qed.

Lemma quiet_imap {A} (f : nat -> A -> line) (l : list A) :
  quiet (imap (fun k x => Console (f k x)) l).
Proof.
  revert f. induction l as [|x l IH]; intros f; cbn [imap]; [constructor|].
  constructor; [done|]. apply (IH (fun k => f (S k))).
Qed.

Lemma quiet_recipients (tr : list event) : quiet tr -> recipients tr = [].
Proof. induction 1 as [|[] tr H _ IH]; try done. Qed.

Lemma quiet_answers (tr : list event) : quiet tr -> answers tr = [].
Proof. induction 1 as [|[] tr H _ IH]; try done. Qed.

Lemma quiet_delivered (tr : list event) : quiet tr -> delivered tr = 0%nat.
Proof. intros H. unfold delivered. by rewrite quiet_answers. Qed.

Lemma quiet_rejected (tr : list event) : quiet tr -> rejected tr = 0%nat.
Proof. intros H. unfold rejected. by rewrite quiet_answers. Qed.

Lemma quiet_sleeps (tr : list event) : quiet tr -> sleeps tr = [].
Proof. induction 1 as [|[] tr H _ IH]; try done. Qed.

Lemma quiet_pace (hot : bool) (tr : list event) : quiet tr -> pace hot tr = Some hot.
Proof. induction 1 as [|[] tr H _ IH]; try done. Qed.

Lemma quiet_settled (dirty : bool) (tr : list event) :
  quiet tr -> settled dirty tr = Some dirty.
Proof. induction 1 as [|[] tr H _ IH]; try done. Qed.

End TraceFacts.



(** ** Loading the log (C5) *)



(** ** The two naming schemes (C2) *)

Section Schemes.
Import Spec SimplifiedDerived.

Lemma resolve_first (a b : jsval) (s : jsstring) :
  first_non_empty [a; b] = Some s -> or_else a b = JStr s.
Proof. intros H. pose proof (or_else_first a b) as F. by rewrite H in F. Qed.

Lemma or_else_resolves (a b : jsval) : resolves [a; b] (or_else a b).
Proof.
  unfold resolves. pose proof (or_else_first a b) as F.
  destruct (first_non_empty [a; b]); [done|]. by apply falsy_present.
Qed.

Lemma present_or_else (a b : jsval) :
  present (or_else a b) = first_non_empty [a; b].
Proof. by destruct a as [| |[|x a]], b as [| |[|y b]]. Qed.

Lemma strict_ne_strings (a b : jsstring) :
  strict_ne (JStr a) (JStr b) = bool_decide (a ≠ b).
Proof. unfold strict_ne. apply bool_decide_ext. split; congruence. Qed.

Lemma wanted_by_address (A : gset jsval) (r : Contact) :
  Simplified.wanted A r
  = match first_non_empty [email r; EntrepriseContactEmail r] with
    | Some a =>
        bool_decide (a ≠ js "N/A")
        && (negb (bool_decide (JStr a ∈ A)) && includes a 64)
    | None => false
    end.
Proof.
  unfold Simplified.wanted, or_else.
  destruct (email r) as [| |[|x a]], (EntrepriseContactEmail r) as [| |[|y b]];
    cbn [truthy first_non_empty present andb]; try done;
    by rewrite strict_ne_strings.
Qed.

Lemma greeting_by_names (f c : jsval) :
  Simplified.greeting (cleaned f) c
  = match present f with
    | Some n => greeting_of (cleaned_name n) c
    | None => fallback_greeting c
    end.
Proof.
  destruct f as [| |[|x n]]; cbn [cleaned present].
  - apply simplified_no_name.
  - apply simplified_no_name.
  - unfold Simplified.greeting. apply company_greeting.
  - apply simplified_greeting.
Qed.

End Schemes.

(** C2 as the specification states it fails on the extended variant,
    which reads only [email], [companyName] and [founderName]: the record
    in the alternate scheme does not pass its filter, whatever the log,
    while the record in the native scheme does. *)
Lemma C2_counterexample :
  Extended.wanted ∅ Examples.native <> Extended.wanted ∅ Examples.alternate.
Proof. vm_compute. discriminate. Qed.

(** C2, amended.  For every record, the simplified variant takes the
    address from the first non-empty of [email] and
    [EntrepriseContactEmail], the company name from the first non-empty of
    [companyName] and [EntrepriseName], and the founder name from the
    first non-empty of [founderName] and [EntrepriseContactName]; where
    neither of the two is non-empty, the value it works with is not a
    non-empty string either.  Each of the three is resolved on its own,
    whatever the other fields hold.  The filter is a function of the
    resolved address, the message one of the three resolved values, and a
    turn of the loop returns with the entry made from the resolved address
    and company name.  So two records that resolve to the same address
    pass the filter alike; if they also resolve to the same company name
    their log entries are the same; and if they resolve to the same three
    values the message is the same and a turn of the loop does the same
    in every state.  The extended variant reads the native names only,
    and a record without [email] never passes its filter. *)
Theorem C2_field_schemes (env : Env) (r1 r2 : Contact) :
  (forall r : Contact,
     Spec.resolves [email r; EntrepriseContactEmail r]
                   (SimplifiedDerived.address r)
     /\ Spec.resolves [companyName r; EntrepriseName r]
                      (SimplifiedDerived.company r)
     /\ Spec.resolves [founderName r; EntrepriseContactName r]
                      (SimplifiedDerived.founder r))
  /\ (forall (r : Contact) (alreadySent : gset jsval),
        Simplified.wanted alreadySent r
        = match Spec.first_non_empty [email r; EntrepriseContactEmail r] with
          | Some a =>
              bool_decide (a ≠ js "N/A")
              && (negb (bool_decide (JStr a ∈ alreadySent)) && includes a 64)
          | None => false
          end)
  /\ (forall r : Contact,
        SimplifiedDerived.options env r
        = mkMail (GMAIL_USER env) (SimplifiedDerived.address r)
            (js "Internship Application - Full Stack Developer")
            (match Spec.first_non_empty
                     [founderName r; EntrepriseContactName r] with
             | Some n =>
                 Spec.greeting_of (Spec.cleaned_name n)
                                  (SimplifiedDerived.company r)
             | None => Spec.fallback_greeting (SimplifiedDerived.company r)
             end ++ Simplified.letter)
            (match cv_file env with
             | Some _ => [ByPath Simplified.CONFIG.CV_PATH]
             | None => []
             end))
  /\ (forall (r : Contact) (n i : nat) (s : State),
        exists s',
          Simplified.attempt env n i r s = (Ret tt, s')
          /\ SimplifiedDerived.stepped env n i r s s')
  /\ (Spec.first_non_empty [email r1; EntrepriseContactEmail r1]
      = Spec.first_non_empty [email r2; EntrepriseContactEmail r2] ->
      forall alreadySent : gset jsval,
        Simplified.wanted alreadySent r1 = Simplified.wanted alreadySent r2)
  /\ (SimplifiedDerived.address r1 = SimplifiedDerived.address r2 ->
      SimplifiedDerived.company r1 = SimplifiedDerived.company r2 ->
      forall (t : jsstring) (e : Error),
        SimplifiedDerived.sent_entry r1 t = SimplifiedDerived.sent_entry r2 t
        /\ SimplifiedDerived.failed_entry r1 t e
           = SimplifiedDerived.failed_entry r2 t e)
  /\ (SimplifiedDerived.address r1 = SimplifiedDerived.address r2 ->
      SimplifiedDerived.company r1 = SimplifiedDerived.company r2 ->
      SimplifiedDerived.founder r1 = SimplifiedDerived.founder r2 ->
      SimplifiedDerived.options env r1 = SimplifiedDerived.options env r2
      /\ forall (n i : nat) (s : State),
           Simplified.attempt env n i r1 s = Simplified.attempt env n i r2 s)
  /\ (forall (alreadySent : gset jsval) (c : Contact),
        email c = JUndefined -> Extended.wanted alreadySent c = false).
Proof.
  split; [|split; [|split; [|split; [|split; [|split; [|split]]]]]].
  - intros r. repeat split; apply or_else_resolves.
  - intros r A. apply wanted_by_address.
  - intros r. unfold SimplifiedDerived.options.
    rewrite greeting_by_names. unfold SimplifiedDerived.founder.
    by rewrite present_or_else.
  - intros r n i s. apply simplified_attempt_stepped.
  - intros E A. by rewrite !wanted_by_address, E.
  - intros A C t e.
    unfold SimplifiedDerived.sent_entry, SimplifiedDerived.failed_entry.
    by rewrite A, C.
  - intros A C F. split.
    + unfold SimplifiedDerived.options. by rewrite A, C, F.
    + intros n i s. unfold Simplified.attempt.
      change (or_else (email r1) (EntrepriseContactEmail r1))
        with (SimplifiedDerived.address r1).
      change (or_else (email r2) (EntrepriseContactEmail r2))
        with (SimplifiedDerived.address r2).
      change (or_else (companyName r1) (EntrepriseName r1))
        with (SimplifiedDerived.company r1).
      change (or_else (companyName r2) (EntrepriseName r2))
        with (SimplifiedDerived.company r2).
      change (or_else (founderName r1) (EntrepriseContactName r1))
        with (SimplifiedDerived.founder r1).
      change (or_else (founderName r2) (EntrepriseContactName r2))
        with (SimplifiedDerived.founder r2).
      by rewrite A, C, F.
  - intros A c E. unfold Extended.wanted. by rewrite E.
Qed.

(** C2 at the two records of the specification, and at a record with an
    address and nothing else. *)
Lemma C2_field_schemes_witness :
  Simplified.wanted ∅ Examples.native
  = Simplified.wanted ∅ Examples.alternate
  /\ Simplified.attempt (Examples.env_with [] Examples.accepting) 1 0
       Examples.native (initial Missing)
     = Simplified.attempt (Examples.env_with [] Examples.accepting) 1 0
         Examples.alternate (initial Missing)
  /\ Spec.resolves
       [companyName Examples.bare; EntrepriseName Examples.bare]
       (SimplifiedDerived.company Examples.bare).
Proof.
  destruct (C2_field_schemes (Examples.env_with [] Examples.accepting)
              Examples.native Examples.alternate)
    as (R & _ & _ & _ & W & _ & T & _).
  split; [exact (W eq_refl ∅)|].
  split; [exact (proj2 (T eq_refl eq_refl eq_refl) 1%nat 0%nat (initial Missing))|].
  exact (proj1 (proj2 (R Examples.bare))).
Defined.

(** ** Whole runs *)

Section Filter.

Lemma lookup_filter_true {A} (p : A -> bool) (l : list A) (k : nat) (x : A) :
  List.filter p l !! k = Some x -> x ∈ l /\ p x = true.
Proof.
  intros H. apply list_elem_of_lookup_2, list_elem_of_In, filter_In in H.
  destruct H as [H1 H2]. by apply list_elem_of_In in H1.
Qed.

Lemma not_elem_of_snoc {A} (l : list A) (x a : A) :
  a ∉ l -> x <> a -> a ∉ l ++ [x].
Proof.
  intros Hl Hx. apply not_elem_of_app. split; [done|].
  apply not_elem_of_cons. split; [done|apply not_elem_of_nil].
Qed.

Lemma in_sent_addresses (l : Log) (a : jsval) :
  a ∈ sent_addresses l <-> a ∈ entry_email <$> sent l.
Proof. unfold sent_addresses. apply elem_of_list_to_set. Qed.

Lemma simplified_wanted_fresh (A : gset jsval) (c : Contact) :
  Simplified.wanted A c = true -> SimplifiedDerived.address c ∉ A.
Proof.
  unfold Simplified.wanted. fold (SimplifiedDerived.address c).
  intros H. repeat (apply andb_prop in H as [? H]).
  match goal with
  | N : negb _ = true |- _ =>
      by apply negb_true_iff, bool_decide_eq_false in N
  end.
Qed.

Lemma extended_wanted_fresh (A : gset jsval) (c : Contact) :
  Extended.wanted A c = true -> email c ∉ A.
Proof.
  unfold Extended.wanted.
  intros H. repeat (apply andb_prop in H as [? H]).
  match goal with
  | N : negb _ = true |- _ =>
      by apply negb_true_iff, bool_decide_eq_false in N
  end.
Qed.

Lemma prepared_to (env : Env) (c : Contact) (t : Transporter) (o : MailOptions) :
  ExtendedDerived.prepared env c = inr (t, o) -> mail_to o = email c.
Proof.
  unfold ExtendedDerived.prepared.
  destruct (Extended.createPersonalizedEmail _ _); [|done].
  destruct (_ || _); [done|]. by intros [= <- <-].
Qed.

End Filter.

Section SimplifiedRuns.
Import Simplified Derived SimplifiedDerived Trace.

Context (env : Env) (cs : list Contact) (f : file Log).
Hypothesis companies : companies_file env = Holds cs.
Hypothesis loads : forall e, f <> Corrupt e.

(** A run whose log loads goes through the loop and prints the totals;
    what holds at the start of the loop and is kept by every turn for a
    contact that passed the filter holds at the end of the loop. *)
Lemma simplified_run_inv (I : nat -> State -> Prop) :
  I 0%nat (at_loop cs f) ->
  (forall k c s0 s1,
     toSend cs f !! k = Some c ->
     wanted (sent_addresses (loaded f)) c = true ->
     I k s0 -> stepped env (length (toSend cs f)) k c s0 s1 -> I (S k) s1) ->
  exists s,
    I (length (toSend cs f)) s
    /\ sendBulkEmails env (initial f)
       = (Ret tt,
          mkState (log_file s) (sends s) (ticks s)
            (trace s ++ [Console (LTotals (length (sent (log s)))
                                          (length (failed (log s))))])
            (log s) (successCount s) (failCount s)).
Proof.
  intros H0 Hstep.
  destruct (simplified_loop_inv env I (length (toSend cs f))
              (toSend cs f) (at_loop cs f) H0) as (s & E & Hs).
  { intros k c s0 s1 Hk. apply Hstep; [done|].
    by apply lookup_filter_true in Hk as [_ ?]. }
  exists s. split; [done|].
  rewrite (simplified_sendBulkEmails_eq env cs f companies), E.
  destruct f; try done. by destruct (loads e).
Qed.

End SimplifiedRuns.

Section ExtendedRuns.
Import Extended Derived ExtendedDerived Trace.

Context (env : Env) (cs : list Contact) (f : file Log).
Hypothesis companies : companies_file env = Holds cs.

(** A run with nobody to write to prints so and ends. *)
Lemma extended_run_idle :
  toSend cs f = [] ->
  sendBulkEmails env (initial f)
  = (Ret tt, mkState f 0 0 (preamble cs f ++ [Console XNoNew]) (loaded f) 0 0).
Proof.
  intros E. by rewrite (extended_sendBulkEmails_eq env cs f companies), E.
Qed.

(** A run with somebody to write to goes through the loop and prints the
    summary; what holds at the start of the loop and is kept by every turn
    for a contact that passed the filter holds at the end of the loop. *)
Lemma extended_run_inv (I : nat -> State -> Prop) :
  toSend cs f <> [] ->
  I 0%nat (at_loop cs f) ->
  (forall k c s0 s1,
     toSend cs f !! k = Some c ->
     wanted (sent_addresses (loaded f)) c = true ->
     I k s0 -> stepped env (length (toSend cs f)) k c s0 s1 -> I (S k) s1) ->
  exists s,
    I (length (toSend cs f)) s
    /\ sendBulkEmails env (initial f)
       = (Ret tt,
          mkState (log_file s) (sends s) (ticks s)
            (trace s ++ summary (successCount s) (failCount s))
            (log s) (successCount s) (failCount s)).
Proof.
  intros Hne H0 Hstep.
  destruct (extended_loop_inv env I (length (toSend cs f))
              (toSend cs f) (at_loop cs f) H0) as (s & E & Hs).
  { intros k c s0 s1 Hk. apply Hstep; [done|].
    by apply lookup_filter_true in Hk as [_ ?]. }
  exists s. split; [done|].
  rewrite (extended_sendBulkEmails_eq env cs f companies), E.
  by destruct (toSend cs f).
Qed.

End ExtendedRuns.

Section Quiet.
Import Trace ExtendedDerived.

Lemma quiet_app (t1 t2 : list event) : quiet t1 -> quiet t2 -> quiet (t1 ++ t2).
Proof. apply Forall_app_2. Qed.

Lemma quiet_preamble (cs : list Contact) (f : file Log) : quiet (preamble cs f).
Proof. unfold preamble. destruct f; repeat constructor. Qed.

Lemma quiet_preview (l : list Contact) : quiet (preview l).
Proof.
  unfold preview. apply quiet_app; [repeat constructor|].
  apply quiet_app; [apply quiet_imap|repeat constructor].
Qed.

Lemma quiet_at_loop (cs : list Contact) (f : file Log) :
  quiet (trace (at_loop cs f)).
Proof. apply quiet_app; [apply quiet_preamble|apply quiet_preview]. Qed.

Lemma quiet_summary (a b : nat) : quiet (summary a b).
Proof. repeat constructor. Qed.

Lemma quiet_opening (n i : nat) (c : Contact) : quiet (opening n i c).
Proof. repeat constructor. Qed.

Lemma quiet_cv_warning (env : Env) : quiet (cv_warning env).
Proof. unfold cv_warning. destruct (cv_file env); repeat constructor. Qed.

Lemma recipients_opening (n i : nat) (c : Contact) :
  recipients (opening n i c) = [].
Proof. reflexivity. Qed.

Lemma recipients_summary (a b : nat) : recipients (summary a b) = [].
Proof. reflexivity. Qed.

Lemma recipients_pause (n i : nat) :
  recipients (SimplifiedDerived.pause n i) = [].
Proof. unfold SimplifiedDerived.pause. by destruct (Derived.not_last n i). Qed.

Lemma recipients_pause_sent (n i : nat) : recipients (pause_sent n i) = [].
Proof. unfold pause_sent. by destruct (Derived.not_last n i). Qed.

Lemma recipients_pause_failed (n i : nat) : recipients (pause_failed n i) = [].
Proof. unfold pause_failed. by destruct (Derived.not_last n i). Qed.

Lemma answers_pause (n i : nat) :
  answers (SimplifiedDerived.pause n i) = [].
Proof. unfold SimplifiedDerived.pause. by destruct (Derived.not_last n i). Qed.

Lemma answers_pause_sent (n i : nat) : answers (pause_sent n i) = [].
Proof. unfold pause_sent. by destruct (Derived.not_last n i). Qed.

Lemma answers_pause_failed (n i : nat) : answers (pause_failed n i) = [].
Proof. unfold pause_failed. by destruct (Derived.not_last n i). Qed.

End Quiet.

(** C9.  An address that the loaded log lists as sent is not written to
    again: the run never calls the transport with it as recipient, and
    what the run adds to the sent sequence has no entry for it.  Both
    variants, for every contact list, provider and clock; the run returns
    and the log file holds the resulting log. *)
Theorem C9_sent_addresses_are_skipped (env : Env) (cs : list Contact)
    (l0 : Log) (a : jsval) :
  companies_file env = Holds cs ->
  a ∈ (entry_email <$> sent l0) ->
  (exists s',
     Simplified.sendBulkEmails env (initial (Holds l0)) = (Ret tt, s')
     /\ (a ∉ Trace.recipients (trace s'))
     /\ (exists new, sent (log s') = sent l0 ++ new /\ a ∉ (entry_email <$> new))
     /\ log_file s' = Holds (log s'))
  /\ (exists s',
        Extended.sendBulkEmails env (initial (Holds l0)) = (Ret tt, s')
        /\ (a ∉ Trace.recipients (trace s'))
        /\ (exists new, sent (log s') = sent l0 ++ new /\ a ∉ (entry_email <$> new))
        /\ log_file s' = Holds (log s')).
Proof.
  intros Hcs Ha.
  assert (HA : a ∈ sent_addresses (Derived.loaded (Holds l0)))
    by by apply in_sent_addresses.
  pose (I := fun (_ : nat) (s : State) =>
    (a ∉ Trace.recipients (trace s))
    /\ (exists new, sent (log s) = sent l0 ++ new /\ a ∉ (entry_email <$> new))
    /\ log_file s = Holds (log s)).
  assert (Hnil : exists new : list LogEntry,
             sent l0 = sent l0 ++ new /\ a ∉ (entry_email <$> new)).
  { exists []. split; [by rewrite app_nil_r|by apply not_elem_of_nil]. }
  split.
  - destruct (simplified_run_inv env cs (Holds l0) Hcs ltac:(done) I)
      as (s & (R & N & D) & E).
    + split; [by apply not_elem_of_nil|split; [exact Hnil|done]].
    + intros k c s0 s1 _ W (R & (new & N1 & N2) & _) St.
      apply simplified_wanted_fresh in W.
      assert (SimplifiedDerived.address c <> a) by (intros E; apply W; by rewrite E).
      destruct St as [Hs l|e Hs l]; subst l; unfold I;
        cbn [trace log log_file sent failed];
        rewrite !recipients_app, ?recipients_pause;
        cbn [Trace.recipients omap list_omap mail_to SimplifiedDerived.options app];
        rewrite ?app_nil_r.
      * split; [by apply not_elem_of_snoc|split; [|done]].
        exists (new ++ [SimplifiedDerived.sent_entry c (clock env (ticks s0))]).
        rewrite N1, <- app_assoc. split; [done|].
        rewrite fmap_app. by apply not_elem_of_snoc.
      * split; [by apply not_elem_of_snoc|split; [by exists new|done]].
    + eexists. split; [exact E|]. cbn [trace log log_file].
      rewrite recipients_app. cbn [Trace.recipients omap list_omap]. by rewrite app_nil_r.
  - destruct (decide (ExtendedDerived.toSend cs (Holds l0) = [])) as [Z|NZ].
    + eexists. split; [by apply extended_run_idle|].
      cbn [trace log log_file Derived.loaded].
      rewrite recipients_app, (quiet_recipients _ (quiet_preamble _ _)).
      split; [by apply not_elem_of_nil|split; [exact Hnil|done]].
    + destruct (extended_run_inv env cs (Holds l0) Hcs I NZ)
        as (s & (R & N & D) & E).
      * split; [|split; [exact Hnil|done]].
        rewrite (quiet_recipients _ (quiet_at_loop _ _)).
        by apply not_elem_of_nil.
      * intros k c s0 s1 _ W (R & (new & N1 & N2) & _) St.
        apply extended_wanted_fresh in W.
        assert (email c <> a) by (intros E; apply W; by rewrite E).
        destruct St as [e P l|t o P Hs l|t o e P Hs l]; subst l; unfold I;
          cbn [trace log log_file sent failed];
          rewrite !recipients_app,
            ?(quiet_recipients _ (quiet_opening _ _ _)),
            ?(quiet_recipients _ (quiet_cv_warning _)),
            ?recipients_pause_sent, ?recipients_pause_failed;
          cbn [Trace.recipients omap list_omap app]; rewrite ?app_nil_r;
          try (apply prepared_to in P; rewrite P).
        -- split; [done|split; [by exists new|done]].
        -- split; [by apply not_elem_of_snoc|split; [|done]].
           exists (new ++ [ExtendedDerived.sent_entry c (clock env (ticks s0))]).
           rewrite N1, <- app_assoc. split; [done|].
           rewrite fmap_app. by apply not_elem_of_snoc.
        -- split; [by apply not_elem_of_snoc|split; [by exists new|done]].
      * eexists. split; [exact E|]. cbn [trace log log_file].
        rewrite recipients_app, (quiet_recipients _ (quiet_summary _ _)).
        by rewrite app_nil_r.
Qed.

(** C9 at a list of two contacts, the first of which an earlier run
    reached. *)
Lemma C9_sent_addresses_are_skipped_witness :
  companies_file
    (Examples.env_with [Examples.native; Examples.second] Examples.accepting)
  = Holds [Examples.native; Examples.second]
  /\ JStr (js "a@b.com") ∈ (entry_email <$> sent Examples.earlier)
  /\ exists s',
       Simplified.sendBulkEmails
         (Examples.env_with [Examples.native; Examples.second] Examples.accepting)
         (initial (Holds Examples.earlier)) = (Ret tt, s')
       /\ JStr (js "a@b.com") ∉ Trace.recipients (trace s').
Proof.
  assert (H : JStr (js "a@b.com") ∈ (entry_email <$> sent Examples.earlier))
    by (vm_compute; constructor).
  split; [reflexivity|split; [exact H|]].
  destruct (C9_sent_addresses_are_skipped
              (Examples.env_with [Examples.native; Examples.second]
                                 Examples.accepting)
              [Examples.native; Examples.second] Examples.earlier
              (JStr (js "a@b.com")) eq_refl H)
    as [(s' & E & R & _) _].
  exists s'. split; [exact E|exact R].
Defined.

(** ** The entries a run adds (C6) *)


Section Entries.
Import Derived.

Lemma corrupt_or_loads (f : file Log) :
  (exists e, f = Corrupt e) \/ (forall e, f <> Corrupt e).
Proof. destruct f; eauto; right; done. Qed.

Lemma simplified_sent_shape_more (env : Env) (cs : list Contact)
    (a b : nat) (e : LogEntry) :
  (a <= b)%nat ->
  SimplifiedDerived.sent_shape env cs a e ->
  SimplifiedDerived.sent_shape env cs b e.
Proof. intros L (c & n & k & ? & ? & ? & ?). exists c, n, k. repeat split; [done|lia|done..]. Qed.

Lemma simplified_failed_shape_more (env : Env) (cs : list Contact)
    (a b : nat) (e : LogEntry) :
  (a <= b)%nat ->
  SimplifiedDerived.failed_shape env cs a e ->
  SimplifiedDerived.failed_shape env cs b e.
Proof.
  intros L (c & n & k & err & ? & ? & ? & ?). exists c, n, k, err.
  repeat split; [done|lia|done..].
Qed.

Lemma extended_sent_shape_more (env : Env) (cs : list Contact)
    (a b : nat) (e : LogEntry) :
  (a <= b)%nat ->
  ExtendedDerived.sent_shape env cs a e ->
  ExtendedDerived.sent_shape env cs b e.
Proof.
  intros L (c & n & k & t & o & ? & ? & ? & ? & ?). exists c, n, k, t, o.
  repeat split; [done|lia|done..].
Qed.

Lemma extended_failed_shape_more (env : Env) (cs : list Contact)
    (a b : nat) (e : LogEntry) :
  (a <= b)%nat ->
  ExtendedDerived.failed_shape env cs a e ->
  ExtendedDerived.failed_shape env cs b e.
Proof.
  intros L (c & k & err & ? & R & ?). exists c, k, err.
  split; [done|]. split; [|done].
  destruct R as [R|(n & t & o & ? & ? & ?)]; [by left|right].
  exists n, t, o. repeat split; [lia|done..].
Qed.

Lemma simplified_shapes_stamped (env : Env) (cs : list Contact) (calls : nat)
    (ns nf : list LogEntry) :
  Date.governs env ->
  Forall (SimplifiedDerived.sent_shape env cs calls) ns ->
  Forall (SimplifiedDerived.failed_shape env cs calls) nf ->
  Forall (fun e => Iso8601.stamped (entry_timestamp e)) (ns ++ nf).
Proof.
  intros G S F. apply Forall_app_2.
  - eapply Forall_impl; [exact S|].
    intros e (c & n & k & _ & _ & _ & ->). by apply governed_stamped.
  - eapply Forall_impl; [exact F|].
    intros e (c & n & k & err & _ & _ & _ & ->). by apply governed_stamped.
Qed.

Lemma extended_shapes_stamped (env : Env) (cs : list Contact) (calls : nat)
    (ns nf : list LogEntry) :
  Date.governs env ->
  Forall (ExtendedDerived.sent_shape env cs calls) ns ->
  Forall (ExtendedDerived.failed_shape env cs calls) nf ->
  Forall (fun e => Iso8601.stamped (entry_timestamp e)) (ns ++ nf).
Proof.
  intros G S F. apply Forall_app_2.
  - eapply Forall_impl; [exact S|].
    intros e (c & n & k & t & o & _ & _ & _ & _ & ->). by apply governed_stamped.
  - eapply Forall_impl; [exact F|].
    intros e (c & k & err & _ & _ & ->). by apply governed_stamped.
Qed.

End Entries.



(** ** The summary (C7) *)

Section Counting.
Import Trace.

Lemma delivered_pause (n i : nat) : delivered (SimplifiedDerived.pause n i) = 0%nat.
Proof. unfold delivered. by rewrite answers_pause. Qed.

Lemma rejected_pause (n i : nat) : rejected (SimplifiedDerived.pause n i) = 0%nat.
Proof. unfold rejected. by rewrite answers_pause. Qed.

Lemma delivered_pause_sent (n i : nat) :
  delivered (ExtendedDerived.pause_sent n i) = 0%nat.
Proof. unfold delivered. by rewrite answers_pause_sent. Qed.

Lemma delivered_pause_failed (n i : nat) :
  delivered (ExtendedDerived.pause_failed n i) = 0%nat.
Proof. unfold delivered. by rewrite answers_pause_failed. Qed.

End Counting.

(** C7 as the specification states it fails on the simplified variant: in
    a run that starts from a log with one sent entry and delivers one
    message, the last line reports two sent. *)
Lemma C7_counterexample :
  exists s' : State,
    Simplified.main (Examples.env_with [Examples.second] Examples.accepting)
      Examples.plain_argv (initial (Holds Examples.earlier)) = (Ret tt, s')
    /\ last (Trace.lines (trace s')) = Some (LTotals 2 0)
    /\ Trace.delivered (trace s') = 1%nat.
Proof. eexists. split; [vm_compute; reflexivity|]. split; reflexivity. Qed.

(** C7, amended.  A run of the extended variant with at least one contact
    to write to ends with the summary: the number of messages the provider
    accepted in this run, the number of the other attempts of this run,
    their sum, which is the number of contacts attempted, and the path of
    the log file; the two sequences of the log grew by the two numbers.
    With no contact to write to it says so and prints no summary.  A run of
    the simplified variant whose log loads ends with one line that gives
    the lengths of the two sequences of the log, entries of earlier runs
    included: the lengths loaded plus the numbers of messages accepted and
    rejected in this run; it does not give the path of the log file. *)
Theorem C7_summary (env : Env) (cs : list Contact) (f : file Log) :
  companies_file env = Holds cs ->
  (ExtendedDerived.toSend cs f <> [] ->
   exists (s : State) (a b : nat),
     Extended.sendBulkEmails env (initial f)
     = (Ret tt,
        mkState (log_file s) (sends s) (ticks s)
                (trace s ++ ExtendedDerived.summary a b)
                (log s) a b)
     /\ a = Trace.delivered (trace s)
     /\ (a + b)%nat = length (ExtendedDerived.toSend cs f)
     /\ length (sent (log s)) = (length (sent (Derived.loaded f)) + a)%nat
     /\ length (failed (log s)) = (length (failed (Derived.loaded f)) + b)%nat)
  /\ (ExtendedDerived.toSend cs f = [] ->
      Extended.sendBulkEmails env (initial f)
      = (Ret tt,
         mkState f 0 0 (ExtendedDerived.preamble cs f ++ [Console XNoNew])
                 (Derived.loaded f) 0 0))
  /\ ((forall e, f <> Corrupt e) ->
      exists (s : State) (a b : nat),
        Simplified.sendBulkEmails env (initial f)
        = (Ret tt,
           mkState (log_file s) (sends s) (ticks s)
             (trace s
                ++ [Console (LTotals (length (sent (Derived.loaded f)) + a)
                                     (length (failed (Derived.loaded f)) + b))])
             (log s) 0 0)
        /\ a = Trace.delivered (trace s)
        /\ b = Trace.rejected (trace s)
        /\ (a + b)%nat = length (SimplifiedDerived.toSend cs f)
        /\ length (sent (log s)) = (length (sent (Derived.loaded f)) + a)%nat
        /\ length (failed (log s)) = (length (failed (Derived.loaded f)) + b)%nat).
Proof.
  intros Hcs. split; [|split].
  - intros NZ.
    pose (I := fun (k : nat) (s : State) =>
      successCount s = Trace.delivered (trace s)
      /\ (successCount s + failCount s)%nat = k
      /\ length (sent (log s))
         = (length (sent (Derived.loaded f)) + successCount s)%nat
      /\ length (failed (log s))
         = (length (failed (Derived.loaded f)) + failCount s)%nat).
    destruct (extended_run_inv env cs f Hcs I NZ)
      as (s & (H1 & H2 & H3 & H4) & E).
    + unfold I. rewrite (quiet_delivered _ (quiet_at_loop cs f)).
      cbn [ExtendedDerived.at_loop successCount failCount log]. lia.
    + intros k c s0 s1 _ _ (H1 & H2 & H3 & H4) St.
      destruct St as [e P l|t o P Hs l|t o e P Hs l]; subst l; unfold I;
        cbn [trace log successCount failCount sent failed];
        rewrite !delivered_app, ?length_app,
          ?(quiet_delivered _ (quiet_opening _ _ _)),
          ?(quiet_delivered _ (quiet_cv_warning _)),
          ?delivered_pause_sent, ?delivered_pause_failed;
        cbn [Trace.delivered Trace.answers omap list_omap List.filter length];
        lia.
    + exists s, (successCount s), (failCount s).
      split; [exact E|]. done.
  - apply (extended_run_idle env cs f Hcs).
  - intros NC.
    pose (I := fun (k : nat) (s : State) =>
      (Trace.delivered (trace s) + Trace.rejected (trace s))%nat = k
      /\ length (sent (log s))
         = (length (sent (Derived.loaded f)) + Trace.delivered (trace s))%nat
      /\ length (failed (log s))
         = (length (failed (Derived.loaded f)) + Trace.rejected (trace s))%nat
      /\ successCount s = 0%nat /\ failCount s = 0%nat).
    destruct (simplified_run_inv env cs f Hcs NC I)
      as (s & (H1 & H2 & H3 & H4 & H5) & E).
    + unfold I. cbn. lia.
    + intros k c s0 s1 _ _ (H1 & H2 & H3 & H4 & H5) St.
      destruct St as [Hs l|e Hs l]; subst l; unfold I;
        cbn [trace log successCount failCount sent failed];
        rewrite !delivered_app, !rejected_app, ?length_app,
          ?delivered_pause, ?rejected_pause;
        cbn [Trace.delivered Trace.rejected Trace.answers omap list_omap
             List.filter length];
        lia.
    + exists s, (Trace.delivered (trace s)), (Trace.rejected (trace s)).
      split; [|done]. rewrite E, H2, H3, H4, H5. done.
Qed.

(** C7 at a run of the extended variant over two contacts. *)
Lemma C7_summary_witness :
  companies_file
    (Examples.env_with [Examples.native; Examples.second] Examples.rejecting_first)
  = Holds [Examples.native; Examples.second]
  /\ ExtendedDerived.toSend [Examples.native; Examples.second] Missing <> []
  /\ exists (s : State) (a b : nat),
       Extended.sendBulkEmails
         (Examples.env_with [Examples.native; Examples.second]
                            Examples.rejecting_first)
         (initial Missing)
       = (Ret tt,
          mkState (log_file s) (sends s) (ticks s)
                  (trace s ++ ExtendedDerived.summary a b) (log s) a b)
       /\ a = Trace.delivered (trace s)
       /\ (a + b)%nat = 2%nat.
Proof.
  assert (NZ : ExtendedDerived.toSend [Examples.native; Examples.second] Missing
               <> []) by (vm_compute; discriminate).
  split; [reflexivity|split; [exact NZ|]].
  destruct (C7_summary
              (Examples.env_with [Examples.native; Examples.second]
                                 Examples.rejecting_first)
              [Examples.native; Examples.second] Missing eq_refl)
    as [HE _].
  destruct (HE NZ) as (s & a & b & E & A & B & _).
  exists s, a, b. split; [exact E|split; [exact A|exact B]].
Defined.

(** ** Missing credentials and the help flag (C4) *)

Section Credentials.
Import Extended ExtendedDerived.

Lemma prepared_without (env : Env) (c : Contact) :
  truthy (GMAIL_USER env) = false \/ truthy (GMAIL_APP_PASSWORD env) = false ->
  exists e,
    prepared env c = inl e
    /\ (e = missing_credentials
        \/ e = cannot_read (founderName c) (js "replace")).
Proof.
  intros H. unfold prepared, createPersonalizedEmail.
  destruct (founderName c) as [| |fn]; cbn [replace_trim]; eauto.
  destruct H as [-> | ->]; cbn [negb orb]; rewrite ?orb_true_r; eauto.
Qed.

Lemma parseArg_keeps_help (r : Args) (arg : jsstring) :
  arg_help r = true -> arg_help (parseArg r arg) = true.
Proof.
  intros H. unfold parseArg.
  repeat match goal with
  | |- context [if ?b then _ else _] => destruct b
  | |- context [match ?o with Some _ => _ | None => _ end] => destruct o
  end; done.
Qed.

Lemma parseArgs_keeps_help (args : list jsstring) (r : Args) :
  arg_help r = true -> arg_help (fold_left parseArg args r) = true.
Proof.
  revert r. induction args as [|a args IH]; intros r H; [done|].
  cbn [fold_left]. by apply IH, parseArg_keeps_help.
Qed.

Lemma parseArgs_finds_help (args : list jsstring) (r : Args) :
  js "--help" ∈ args \/ js "-h" ∈ args ->
  arg_help (fold_left parseArg args r) = true.
Proof.
  revert r. induction args as [|a args IH]; intros r H.
  - destruct H as [H|H]; by apply elem_of_nil in H.
  - cbn [fold_left].
    destruct (decide (a = js "--help" \/ a = js "-h")) as [E|NE].
    + apply parseArgs_keeps_help. unfold parseArg.
      destruct E as [-> | ->]; reflexivity.
    + apply IH. rewrite !elem_of_cons in H.
      destruct H as [[H|H]|[H|H]]; auto; destruct NE; auto.
Qed.

End Credentials.




(** ** Pacing (C3) and durability (C1) *)

Section Pauses.
Import Trace Derived.

Lemma not_last_lt (n i : nat) : not_last n i = true -> (S i < n)%nat.
Proof. unfold not_last. intros H%Nat.ltb_lt. lia. Qed.

Lemma not_last_ge (n i : nat) : not_last n i = false -> (n <= S i)%nat.
Proof. unfold not_last. intros H%Nat.ltb_ge. lia. Qed.

(** After a turn of either variant the log file holds the log, with the
    entry of that turn: the log is written before the next turn
    begins. *)
Lemma simplified_written (env : Env) (n i : nat) (c : Contact) (s0 s1 : State) :
  SimplifiedDerived.stepped env n i c s0 s1 ->
  log_file s1 = Holds (log s1)
  /\ (length (sent (log s1)) + length (failed (log s1))
      = S (length (sent (log s0)) + length (failed (log s0))))%nat.
Proof.
  intros [Hs l|e Hs l]; subst l; cbn [log_file log sent failed];
    rewrite length_app; cbn [length]; (split; [done|lia]).
Qed.

Lemma extended_written (env : Env) (n i : nat) (c : Contact) (s0 s1 : State) :
  ExtendedDerived.stepped env n i c s0 s1 ->
  log_file s1 = Holds (log s1)
  /\ (length (sent (log s1)) + length (failed (log s1))
      = S (length (sent (log s0)) + length (failed (log s0))))%nat.
Proof.
  intros [e P l|t o P Hs l|t o e P Hs l]; subst l;
    cbn [log_file log sent failed];
    rewrite length_app; cbn [length]; (split; [done|lia]).
Qed.

End Pauses.


(** C3 on the simplified variant, at a list of two contacts where the
    provider rejects the first message: the run calls the transport for
    the first contact, writes the log, and calls the transport for the
    second contact with no pause at all.  The extended variant pauses
    once, for the full delay, on the same input. *)
Theorem C3_no_pause_after_a_failure :
  (exists s',
     Simplified.main
       (Examples.env_with [Examples.native; Examples.second]
                          Examples.rejecting_first)
       Examples.plain_argv (initial Missing) = (Ret tt, s')
     /\ Trace.outline (trace s')
        = [Trace.Mailed (JStr (js "a@b.com")) false; Trace.Wrote 0 1;
           Trace.Mailed (JStr (js "c@d.com")) true; Trace.Wrote 1 1]
     /\ Trace.sleeps (trace s') = []
     /\ Trace.pace false (trace s') = None)
  /\ (exists s',
        Extended.main
          (Examples.env_with [Examples.native; Examples.second]
                             Examples.rejecting_first)
          Examples.plain_argv (initial Missing) = (Ret tt, s')
        /\ Trace.outline (trace s')
           = [Trace.Mailed (JStr (js "a@b.com")) false; Trace.Wrote 0 1;
              Trace.Paused 60000;
              Trace.Mailed (JStr (js "c@d.com")) true; Trace.Wrote 1 1]
        /\ Trace.sleeps (trace s') = [60000]
        /\ Trace.pace false (trace s') = Some true).
Proof.
  split; eexists; (split; [vm_compute; reflexivity|]);
    repeat split; reflexivity.
Qed.

(** C1 on the simplified variant, at a list of two contacts where the
    provider accepts both messages: the run pauses for the delay between
    the return of the first transport call and the write of the log, and
    through that pause there is no log file, though the first message is
    out.  The extended variant writes the log before it pauses, on the same
    input. *)
Theorem C1_pause_before_the_log_is_written :
  (exists s',
     Simplified.main
       (Examples.env_with [Examples.native; Examples.second] Examples.accepting)
       Examples.plain_argv (initial Missing) = (Ret tt, s')
     /\ Trace.outline (trace s')
        = [Trace.Mailed (JStr (js "a@b.com")) true; Trace.Paused 60000;
           Trace.Wrote 1 0;
           Trace.Mailed (JStr (js "c@d.com")) true; Trace.Wrote 2 0]
     /\ Trace.disk_at_sleeps Missing (trace s') = [Missing]
     /\ Trace.settled false (trace s') = None)
  /\ (exists s',
        Extended.main
          (Examples.env_with [Examples.native; Examples.second] Examples.accepting)
          Examples.plain_argv (initial Missing) = (Ret tt, s')
        /\ Trace.outline (trace s')
           = [Trace.Mailed (JStr (js "a@b.com")) true; Trace.Wrote 1 0;
              Trace.Paused 60000;
              Trace.Mailed (JStr (js "c@d.com")) true; Trace.Wrote 2 0]
        /\ Trace.disk_at_sleeps Missing (trace s')
           = [Holds (mkLog [ExtendedDerived.sent_entry Examples.native
                              Examples.noon_reading] [])]
        /\ Trace.settled false (trace s') = Some false).
Proof.
  split; eexists; (split; [vm_compute; reflexivity|]);
    repeat split; reflexivity.
Qed.

(** ** The command line of the extended variant *)

Section CommandLine.
Import Extended More.

Lemma parseArg_help (r : Args) (arg : jsstring) :
  arg_help (parseArg r arg) = arg_help r || is_help arg.
Proof.
  unfold parseArg. fold (is_help arg).
  destruct (is_help arg); [by rewrite orb_true_r|rewrite orb_false_r].
  repeat match goal with
  | |- context [match ?o with Some _ => _ | None => _ end] => destruct o
  end; done.
Qed.

Lemma parseArgs_help (args : list jsstring) (r : Args) :
  arg_help (fold_left parseArg args r) = arg_help r || existsb is_help args.
Proof.
  revert r. induction args as [|a args IH]; intros r; cbn [fold_left existsb].
  - by rewrite orb_false_r.
  - by rewrite IH, parseArg_help, orb_assoc.
Qed.

Lemma is_help_spec (arg : jsstring) :
  is_help arg = true <-> arg = js "--help" \/ arg = js "-h".
Proof.
  unfold is_help. rewrite orb_true_iff, !bool_decide_eq_true. done.
Qed.

Lemma after_prefix_app (p v : jsstring) : after_prefix p (p ++ v) = Some v.
Proof.
  induction p as [|c p IH]; [done|].
  cbn [app after_prefix]. by rewrite N.eqb_refl.
Qed.

Lemma help_is_no_to (arg : jsstring) :
  is_help arg = true -> after_prefix (js "--to=") arg = None.
Proof. intros [-> | ->]%is_help_spec; reflexivity. Qed.

Lemma parseArg_to (r : Args) (arg : jsstring) :
  arg_to (parseArg r arg)
  = match after_prefix (js "--to=") arg with
    | Some v => JStr v
    | None => arg_to r
    end.
Proof.
  unfold parseArg. fold (is_help arg).
  destruct (is_help arg) eqn:H; [by rewrite help_is_no_to|].
  repeat match goal with
  | |- context [match ?o with Some _ => _ | None => _ end] => destruct o
  end; done.
Qed.

Lemma parseArgs_no_to (args : list jsstring) (r : Args) :
  Forall (fun a => after_prefix (js "--to=") a = None) args ->
  arg_to (fold_left parseArg args r) = arg_to r.
Proof.
  intros H. revert r. induction H as [|a args Ha _ IH]; intros r; [done|].
  cbn [fold_left]. by rewrite IH, parseArg_to, Ha.
Qed.

Lemma parseArg_unrecognised (r : Args) (arg : jsstring) :
  unrecognised arg -> parseArg r arg = r.
Proof.
  intros (H & T & N & F). unfold parseArg. fold (is_help arg).
  by rewrite H, T, N, F.
Qed.

End CommandLine.

(** The help flag is found wherever it stands on the command line, and
    nothing else sets it: [parseArgs] reports help exactly when one of the
    arguments is "--help" or "-h". *)
Theorem parseArgs_help_iff (args : list jsstring) :
  Extended.arg_help (Extended.parseArgs args) = true
  <-> js "--help" ∈ args \/ js "-h" ∈ args.
Proof.
  unfold Extended.parseArgs. rewrite parseArgs_help. cbn [Extended.arg_help orb].
  rewrite existsb_exists. split.
  - intros (a & Ha%list_elem_of_In & [-> | ->]%is_help_spec); auto.
  - intros [H|H]; eexists; (split; [apply list_elem_of_In, H|reflexivity]).
Qed.

(** Of several "--to=" arguments the last one counts: the recipient is
    what follows the prefix in the last argument that starts with it,
    whatever stands before, and it is [null] when no argument starts with
    it. *)
Theorem parseArgs_last_to_counts (before rest : list jsstring) (v : jsstring) :
  Forall (fun a => Extended.after_prefix (js "--to=") a = None) rest ->
  Extended.arg_to (Extended.parseArgs (before ++ (js "--to=" ++ v) :: rest))
  = JStr v
  /\ Extended.arg_to (Extended.parseArgs rest) = JNull.
Proof.
  intros H. unfold Extended.parseArgs. split.
  - rewrite fold_left_app. cbn [fold_left].
    by rewrite (parseArgs_no_to _ _ H), parseArg_to, after_prefix_app.
  - by rewrite (parseArgs_no_to _ _ H).
Qed.

(** [parseArgs_last_to_counts] at a command line with two recipients and a
    company name after them. *)
Lemma parseArgs_last_to_counts_witness :
  Forall (fun a => Extended.after_prefix (js "--to=") a = None) [js "--name=Acme"]
  /\ Extended.arg_to
       (Extended.parseArgs
          ([js "--to=first@x.org"] ++ (js "--to=" ++ js "hr@example.com")
             :: [js "--name=Acme"]))
     = JStr (js "hr@example.com").
Proof.
  assert (H : Forall (fun a => Extended.after_prefix (js "--to=") a = None)
                     [js "--name=Acme"]) by (repeat constructor).
  split; [exact H|].
  exact (proj1 (parseArgs_last_to_counts [js "--to=first@x.org"]
                  [js "--name=Acme"] (js "hr@example.com") H)).
Defined.

(** An argument that is neither a help flag nor starts with "--to=",
    "--name=" or "--founder=" is ignored, wherever it stands. *)
Theorem parseArgs_ignores_unrecognised (before after : list jsstring)
    (arg : jsstring) :
  More.unrecognised arg ->
  Extended.parseArgs (before ++ arg :: after)
  = Extended.parseArgs (before ++ after).
Proof.
  intros H. unfold Extended.parseArgs. rewrite !fold_left_app.
  cbn [fold_left]. by rewrite (parseArg_unrecognised _ _ H).
Qed.

(** [parseArgs_ignores_unrecognised] at "--verbose" between two
    arguments. *)
Lemma parseArgs_ignores_unrecognised_witness :
  More.unrecognised (js "--verbose")
  /\ Extended.parseArgs ([js "--to=hr@example.com"] ++ js "--verbose"
                           :: [js "--name=Acme"])
     = Extended.parseArgs ([js "--to=hr@example.com"] ++ [js "--name=Acme"]).
Proof.
  assert (H : More.unrecognised (js "--verbose")) by (repeat split).
  split; [exact H|].
  exact (parseArgs_ignores_unrecognised [js "--to=hr@example.com"]
           [js "--name=Acme"] (js "--verbose") H).
Defined.

(** ** Sending to a single address *)

Section Single.
Import Extended ExtendedDerived More Trace.

Lemma sendSingleEmail_eq (env : Env) (to : jsval) (cn fn : jsstring) (s : State) :
  sendSingleEmail env to cn fn s
  = if negb (truthy (GMAIL_USER env)) || negb (truthy (GMAIL_APP_PASSWORD env))
    then (Exit 1,
          mkState (log_file s) (sends s) (ticks s)
            (trace s ++ [Console (XSingle to);
                         Console (XSingleFail (message missing_credentials))])
            (log s) (successCount s) (failCount s))
    else
      let t := mkTransporter (GMAIL_USER env) (GMAIL_APP_PASSWORD env) in
      let o := single_mail env to cn fn in
      match smtp env (sends s) t o with
      | None =>
          (Ret tt,
           mkState (log_file s) (S (sends s)) (ticks s)
             (trace s ++ [Console (XSingle to)] ++ cv_warning env
                ++ [SendMail t o None; Console (XSingleOk to)])
             (log s) (successCount s) (failCount s))
      | Some e =>
          (Exit 1,
           mkState (log_file s) (S (sends s)) (ticks s)
             (trace s ++ [Console (XSingle to)] ++ cv_warning env
                ++ [SendMail t o (Some e); Console (XSingleFail (message e))])
             (log s) (successCount s) (failCount s))
      end.
Proof.
  open_state s.
  unfold sendSingleEmail, sendEmail, createPersonalizedEmail, createTransport,
    single_mail, cv_warning.
  cbn [replace_trim].
  destruct (_ || _); [run; flat; reflexivity|].
  destruct (cv_file env); run;
    match goal with |- context [smtp ?a ?b ?c ?d] => destruct (smtp a b c d) end;
    flat; reflexivity.
Qed.

End Single.

Section TraceMore.
Import Trace More.

Lemma writes_app (t1 t2 : list event) : writes (t1 ++ t2) = writes t1 ++ writes t2.
Proof. apply omap_app. Qed.

Lemma mails_app (t1 t2 : list event) : mails (t1 ++ t2) = mails t1 ++ mails t2.
Proof. apply omap_app. Qed.

Lemma accepted_to_app (t1 t2 : list event) :
  accepted_to (t1 ++ t2) = accepted_to t1 ++ accepted_to t2.
Proof. apply omap_app. Qed.

Lemma rejected_to_app (t1 t2 : list event) :
  rejected_to (t1 ++ t2) = rejected_to t1 ++ rejected_to t2.
Proof. apply omap_app. Qed.

Lemma quiet_writes (tr : list event) : quiet tr -> writes tr = [].
Proof. induction 1 as [|[] tr H _ IH]; try done. Qed.

Lemma quiet_mails (tr : list event) : quiet tr -> mails tr = [].
Proof. induction 1 as [|[] tr H _ IH]; try done. Qed.

Lemma quiet_accepted_to (tr : list event) : quiet tr -> accepted_to tr = [].
Proof. induction 1 as [|[] tr H _ IH]; try done. Qed.

Lemma quiet_rejected_to (tr : list event) : quiet tr -> rejected_to tr = [].
Proof. induction 1 as [|[] tr H _ IH]; try done. Qed.

End TraceMore.

(** Unfold the readings of a trace over appended stretches and compute
    them on the stretches that are written out. *)
Ltac read_trace :=
  rewrite ?recipients_app, ?answers_app, ?sleeps_app, ?writes_app, ?mails_app,
    ?accepted_to_app, ?rejected_to_app;
  rewrite ?(quiet_recipients _ (quiet_cv_warning _)),
    ?(quiet_answers _ (quiet_cv_warning _)),
    ?(quiet_sleeps _ (quiet_cv_warning _)),
    ?(quiet_writes _ (quiet_cv_warning _)),
    ?(quiet_mails _ (quiet_cv_warning _)),
    ?(quiet_accepted_to _ (quiet_cv_warning _)),
    ?(quiet_rejected_to _ (quiet_cv_warning _));
  cbn [Trace.recipients Trace.answers Trace.sleeps More.writes More.mails
       More.accepted_to More.rejected_to omap list_omap app];
  rewrite ?app_nil_r.

(** Write out the events of a turn of the loop, by cases on whether the CV
    file is there and whether the contact is the last, and read them. *)
Ltac read_turn env :=
  unfold ExtendedDerived.opening, ExtendedDerived.cv_warning,
    ExtendedDerived.pause_sent, ExtendedDerived.pause_failed,
    SimplifiedDerived.pause;
  destruct (cv_file env);
  match goal with
  | |- context [Derived.not_last ?n ?k] => destruct (Derived.not_last n k) eqn:?
  | _ => idtac
  end;
  cbn [app];
  rewrite ?recipients_app, ?answers_app, ?sleeps_app, ?writes_app, ?mails_app,
    ?accepted_to_app, ?rejected_to_app, ?delivered_app, ?rejected_app;
  cbn [Trace.recipients Trace.answers Trace.sleeps More.writes More.mails
       More.accepted_to More.rejected_to Trace.delivered Trace.rejected
       omap list_omap List.filter length app];
  rewrite ?app_nil_r.

(** With a recipient on the command line and no help flag, the extended
    variant sends one message at most, to that recipient, and ends with
    status 1 when it could not: it does not read the contact list, does
    not read or write the log, and does not pause. *)
Theorem single_send_leaves_the_log (env : Env) (argv before rest : list jsstring)
    (v : jsstring) (s : State) :
  drop 2 argv = before ++ (js "--to=" ++ v) :: rest ->
  Forall (fun a => Extended.after_prefix (js "--to=") a = None) rest ->
  v <> [] ->
  js "--help" ∉ drop 2 argv ->
  js "-h" ∉ drop 2 argv ->
  exists (r : outcome unit) (s' : State),
    Extended.main env argv s = (r, s')
    /\ log_file s' = log_file s
    /\ log s' = log s
    /\ More.writes (trace s') = More.writes (trace s)
    /\ Trace.sleeps (trace s') = Trace.sleeps (trace s)
    /\ ((r = Ret tt
         /\ Trace.recipients (trace s') = Trace.recipients (trace s) ++ [JStr v]
         /\ More.accepted_to (trace s') = More.accepted_to (trace s) ++ [JStr v])
        \/ (r = Exit 1
            /\ More.accepted_to (trace s') = More.accepted_to (trace s)
            /\ (Trace.recipients (trace s') = Trace.recipients (trace s)
                \/ Trace.recipients (trace s')
                   = Trace.recipients (trace s) ++ [JStr v]))).
Proof.
  intros Hd Hrest Hv H1 H2.
  unfold Extended.main.
  destruct (Extended.arg_help (Extended.parseArgs (drop 2 argv))) eqn:Hh.
  { apply parseArgs_help_iff in Hh as [?|?]; done. }
  rewrite Hd.
  rewrite (proj1 (parseArgs_last_to_counts before rest v Hrest)).
  replace (truthy (JStr v)) with true by (by destruct v).
  unfold bind at 1. unfold ret at 1.
  rewrite sendSingleEmail_eq.
  destruct (_ || _).
  - eexists _, _. split; [reflexivity|]. cbn [log_file log trace].
    read_trace. repeat split; try done. right. auto.
  - cbn zeta.
    match goal with |- context [smtp ?a ?b ?c ?d] => destruct (smtp a b c d) end.
    + eexists _, _. split; [reflexivity|]. cbn [log_file log trace].
      read_trace. repeat split; try done. right. auto.
    + eexists _, _. split; [reflexivity|]. cbn [log_file log trace].
      read_trace. repeat split; try done. left. auto.
Qed.

(** [single_send_leaves_the_log] at "--to=hr@example.com --name=Acme", with
    no contact list and no log on disk. *)
Lemma single_send_leaves_the_log_witness :
  drop 2 (Examples.plain_argv ++ [js "--to=" ++ js "hr@example.com"; js "--name=Acme"])
  = [] ++ (js "--to=" ++ js "hr@example.com") :: [js "--name=Acme"]
  /\ js "hr@example.com" <> []
  /\ exists (r : outcome unit) (s' : State),
       Extended.main
         (mkEnv (JStr (js "me@gmail.com")) (JStr (js "app password")) None
                Missing Examples.accepting Examples.noon)
         (Examples.plain_argv
            ++ [js "--to=" ++ js "hr@example.com"; js "--name=Acme"])
         (initial Missing) = (r, s')
       /\ log_file s' = Missing.
Proof.
  split; [reflexivity|split; [discriminate|]].
  destruct (single_send_leaves_the_log
              (mkEnv (JStr (js "me@gmail.com")) (JStr (js "app password")) None
                     Missing Examples.accepting Examples.noon)
              (Examples.plain_argv
                 ++ [js "--to=" ++ js "hr@example.com"; js "--name=Acme"])
              [] [js "--name=Acme"] (js "hr@example.com") (initial Missing)
              eq_refl ltac:(repeat constructor) ltac:(discriminate)
              ltac:(vm_compute; intros H; by repeat (apply elem_of_cons in H as [H|H]; [discriminate H|]); apply elem_of_nil in H)
              ltac:(vm_compute; intros H; by repeat (apply elem_of_cons in H as [H|H]; [discriminate H|]); apply elem_of_nil in H))
    as (r & s' & E & F & _).
  exists r, s'. split; [exact E|exact F].
Defined.

(** ** A contact list that does not load *)

(** When the contact list is missing or cannot be parsed, the run ends at
    once: the simplified variant with the reader's error, uncaught, the
    extended variant with the error's message on the console and status 1.
    Neither reads the log, calls the transport or writes anything. *)
Theorem unloadable_contact_list_ends_the_run (env : Env) (err : Error)
    (s : State) :
  More.load_error (js "./emails/emails.json") (companies_file env) = Some err ->
  Simplified.sendBulkEmails env s = (Throw err, s)
  /\ Extended.sendBulkEmails env s
     = (Exit 1,
        mkState (log_file s) (sends s) (ticks s)
          (trace s ++ [Console XStarting; Console (XLoadError (message err))])
          (log s) (successCount s) (failCount s)).
Proof.
  intros H. open_state s.
  unfold Simplified.sendBulkEmails, Extended.sendBulkEmails,
    Simplified.CONFIG.COMPANIES_JSON, Extended.CONFIG.COMPANIES_JSON.
  destruct (companies_file env) as [|e|cs]; cbn [More.load_error] in H;
    [injection H as <-|injection H as <-|discriminate H].
  all: split; run; flat; reflexivity.
Qed.

(** [unloadable_contact_list_ends_the_run] where there is no contact
    list. *)
Lemma unloadable_contact_list_ends_the_run_witness :
  More.load_error (js "./emails/emails.json")
    (companies_file
       (mkEnv (JStr (js "me@gmail.com")) (JStr (js "app password")) None
              Missing Examples.accepting Examples.noon))
  = Some (enoent (js "./emails/emails.json"))
  /\ Simplified.sendBulkEmails
       (mkEnv (JStr (js "me@gmail.com")) (JStr (js "app password")) None
              Missing Examples.accepting Examples.noon)
       (initial (Holds Examples.earlier))
     = (Throw (enoent (js "./emails/emails.json")),
        initial (Holds Examples.earlier)).
Proof.
  split; [reflexivity|].
  exact (proj1 (unloadable_contact_list_ends_the_run
                  (mkEnv (JStr (js "me@gmail.com")) (JStr (js "app password"))
                         None Missing Examples.accepting Examples.noon)
                  (enoent (js "./emails/emails.json"))
                  (initial (Holds Examples.earlier)) eq_refl)).
Defined.

(** ** Who is written to, and in which order *)

Section Usable.
Import More.

Lemma usable_intro (v : jsval) (A : gset jsval) :
  truthy v
  && (strict_ne v (JStr (js "N/A"))
  && (negb (bool_decide (v ∈ A))
  && match v with JStr s => includes s 64 | _ => false end)) = true ->
  usable v.
Proof.
  intros H. repeat (apply andb_prop in H as [? H]).
  destruct v as [| |s]; try done. exists s.
  repeat split; try done.
  - by destruct s.
  - unfold strict_ne in *. intros ->.
    match goal with
    | N : bool_decide (_ ≠ _) = true |- _ => by apply bool_decide_eq_true in N
    end.
  - by apply bool_decide_eq_true in H.
Qed.

Lemma simplified_wanted_usable (A : gset jsval) (c : Contact) :
  Simplified.wanted A c = true -> usable (SimplifiedDerived.address c).
Proof. apply usable_intro. Qed.

Lemma extended_wanted_usable (A : gset jsval) (c : Contact) :
  Extended.wanted A c = true -> usable (email c).
Proof. apply usable_intro. Qed.

Lemma prepared_named (env : Env) (c : Contact) :
  truthy (GMAIL_USER env) = true -> truthy (GMAIL_APP_PASSWORD env) = true ->
  match ExtendedDerived.prepared env c with
  | inl _ => named c = false
  | inr (_, o) => named c = true /\ mail_to o = email c
  end.
Proof.
  intros U P. unfold ExtendedDerived.prepared, named,
    Extended.createPersonalizedEmail.
  rewrite U, P. destruct (founderName c); done.
Qed.

End Usable.

(** The simplified variant calls the transport once for every contact that
    passed the filter, in the order of the contact list, with the resolved
    address as recipient, and reads the clock once per contact: nobody is
    dropped or reordered, a contact listed twice is written to twice, and
    a failure does not stop the contacts after it. *)
Theorem simplified_writes_to_everyone_in_order (env : Env) (cs : list Contact)
    (f : file Log) :
  companies_file env = Holds cs ->
  (forall e, f <> Corrupt e) ->
  exists s',
    Simplified.sendBulkEmails env (initial f) = (Ret tt, s')
    /\ Trace.recipients (trace s')
       = SimplifiedDerived.address <$> SimplifiedDerived.toSend cs f
    /\ sends s' = length (SimplifiedDerived.toSend cs f)
    /\ ticks s' = length (SimplifiedDerived.toSend cs f).
Proof.
  intros Hcs Hf.
  pose (I := fun (k : nat) (s : State) =>
    Trace.recipients (trace s)
    = SimplifiedDerived.address <$> take k (SimplifiedDerived.toSend cs f)
    /\ sends s = k /\ ticks s = k).
  destruct (simplified_run_inv env cs f Hcs Hf I) as (s & (R & S & T) & E).
  - done.
  - intros k c s0 s1 Hk _ (R & S & T) St.
    destruct St as [Hs l|e Hs l]; subst l; unfold I; cbn [trace sends ticks];
      rewrite (take_S_r _ _ _ Hk), fmap_app, !recipients_app, R,
        ?recipients_pause;
      cbn [Trace.recipients omap list_omap mail_to SimplifiedDerived.options
           app fmap list_fmap];
      rewrite ?app_nil_r; (split; [done|split; congruence]).
  - eexists. split; [exact E|]. cbn [trace sends ticks].
    rewrite recipients_app, R, firstn_all. cbn. rewrite app_nil_r. done.
Qed.

(** [simplified_writes_to_everyone_in_order] at a list that names one
    contact twice, once in each scheme, with a provider that rejects the
    first message. *)
Lemma simplified_writes_to_everyone_in_order_witness :
  companies_file
    (Examples.env_with [Examples.native; Examples.second; Examples.alternate]
                       Examples.rejecting_first)
  = Holds [Examples.native; Examples.second; Examples.alternate]
  /\ exists s',
       Simplified.sendBulkEmails
         (Examples.env_with [Examples.native; Examples.second; Examples.alternate]
                            Examples.rejecting_first)
         (initial Missing) = (Ret tt, s')
       /\ Trace.recipients (trace s')
          = [JStr (js "a@b.com"); JStr (js "c@d.com"); JStr (js "a@b.com")].
Proof.
  split; [reflexivity|].
  destruct (simplified_writes_to_everyone_in_order
              (Examples.env_with
                 [Examples.native; Examples.second; Examples.alternate]
                 Examples.rejecting_first)
              [Examples.native; Examples.second; Examples.alternate] Missing
              eq_refl ltac:(discriminate))
    as (s' & E & R & _).
  exists s'. split; [exact E|exact R].
Defined.

(** With both credentials set, the extended variant calls the transport
    once for every contact that passed the filter and has a string as
    founder name, in the order of the contact list, with the contact's
    [email] as recipient; the contacts without such a name are recorded as
    failed without a call. *)
Theorem extended_writes_to_the_named_in_order (env : Env) (cs : list Contact)
    (f : file Log) :
  companies_file env = Holds cs ->
  truthy (GMAIL_USER env) = true ->
  truthy (GMAIL_APP_PASSWORD env) = true ->
  exists s',
    Extended.sendBulkEmails env (initial f) = (Ret tt, s')
    /\ Trace.recipients (trace s')
       = email <$> List.filter More.named (ExtendedDerived.toSend cs f)
    /\ failCount s'
       = (length (List.filter (fun c => negb (More.named c))
                              (ExtendedDerived.toSend cs f))
          + Trace.rejected (trace s'))%nat.
Proof.
  intros Hcs U P.
  destruct (decide (ExtendedDerived.toSend cs f = [])) as [Z|NZ].
  { eexists. split; [by apply extended_run_idle|]. rewrite Z.
    cbn [trace failCount]. rewrite recipients_app, rejected_app,
      (quiet_recipients _ (quiet_preamble _ _)),
      (quiet_rejected _ (quiet_preamble _ _)). done. }
  pose (I := fun (k : nat) (s : State) =>
    Trace.recipients (trace s)
    = email <$> List.filter More.named (take k (ExtendedDerived.toSend cs f))
    /\ failCount s
       = (length (List.filter (fun c => negb (More.named c))
                              (take k (ExtendedDerived.toSend cs f)))
          + Trace.rejected (trace s))%nat).
  destruct (extended_run_inv env cs f Hcs I NZ) as (s & (R & F) & E).
  - split.
    + by rewrite (quiet_recipients _ (quiet_at_loop _ _)).
    + by rewrite (quiet_rejected _ (quiet_at_loop _ _)).
  - intros k c s0 s1 Hk _ (R & F) St.
    pose proof (prepared_named env c U P) as N.
    destruct St as [e Pr l|t o Pr Hs l|t o e Pr Hs l]; subst l; unfold I;
      cbn [trace failCount]; rewrite Pr in N;
      rewrite (take_S_r _ _ _ Hk), !List.filter_app, fmap_app, length_app;
      cbn [List.filter];
      [|destruct N as [N M]|destruct N as [N M]]; rewrite N;
      cbn [negb fmap list_fmap length]; read_turn env;
      rewrite ?R, ?F, ?M, ?app_nil_r; (split; [done|lia]).
  - eexists. split; [exact E|]. cbn [trace failCount].
    rewrite recipients_app, rejected_app, R, F, !firstn_all,
      (quiet_recipients _ (quiet_summary _ _)),
      (quiet_rejected _ (quiet_summary _ _)), app_nil_r. split; [done|lia].
Qed.

(** [extended_writes_to_the_named_in_order] at a list whose first contact
    has no founder name. *)
Lemma extended_writes_to_the_named_in_order_witness :
  companies_file
    (Examples.env_with [Examples.nameless; Examples.second] Examples.accepting)
  = Holds [Examples.nameless; Examples.second]
  /\ exists s',
       Extended.sendBulkEmails
         (Examples.env_with [Examples.nameless; Examples.second]
                            Examples.accepting)
         (initial Missing) = (Ret tt, s')
       /\ Trace.recipients (trace s') = [JStr (js "c@d.com")].
Proof.
  split; [reflexivity|].
  destruct (extended_writes_to_the_named_in_order
              (Examples.env_with [Examples.nameless; Examples.second]
                                 Examples.accepting)
              [Examples.nameless; Examples.second] Missing
              eq_refl eq_refl eq_refl)
    as (s' & E & R & _).
  exists s'. split; [exact E|exact R].
Defined.

(** ** Addresses that are never used *)

(** Whatever the contact list holds, every recipient of a transport call
    and every address in an entry that a run adds to the log is a
    non-empty string other than "N/A" with an at sign in it: a contact
    without such an address is neither written to nor logged.  Both
    variants, every run. *)
Theorem unusable_addresses_are_left_out (env : Env) (cs : list Contact)
    (f : file Log) :
  companies_file env = Holds cs ->
  (forall r s',
     Simplified.sendBulkEmails env (initial f) = (r, s') ->
     Forall More.usable (Trace.recipients (trace s'))
     /\ exists ns nf,
          sent (log s') = sent (Derived.loaded f) ++ ns
          /\ failed (log s') = failed (Derived.loaded f) ++ nf
          /\ Forall More.usable (entry_email <$> ns)
          /\ Forall More.usable (entry_email <$> nf))
  /\ (forall r s',
        Extended.sendBulkEmails env (initial f) = (r, s') ->
        Forall More.usable (Trace.recipients (trace s'))
        /\ exists ns nf,
             sent (log s') = sent (Derived.loaded f) ++ ns
             /\ failed (log s') = failed (Derived.loaded f) ++ nf
             /\ Forall More.usable (entry_email <$> ns)
             /\ Forall More.usable (entry_email <$> nf)).
Proof.
  intros Hcs.
  pose (I := fun (_ : nat) (s : State) =>
    Forall More.usable (Trace.recipients (trace s))
    /\ exists ns nf,
         sent (log s) = sent (Derived.loaded f) ++ ns
         /\ failed (log s) = failed (Derived.loaded f) ++ nf
         /\ Forall More.usable (entry_email <$> ns)
         /\ Forall More.usable (entry_email <$> nf)).
  assert (I0 : forall s, Trace.recipients (trace s) = [] ->
                         log s = Derived.loaded f -> I 0%nat s).
  { intros s R E. split; [by rewrite R|].
    exists [], []. rewrite E, !app_nil_r. done. }
  assert (Grow : forall (l : list jsval) (x : jsval),
             Forall More.usable l -> More.usable x -> Forall More.usable (l ++ [x])).
  { intros l x Hl Hx. apply Forall_app_2; [done|]. by constructor. }
  split; intros r s'.
  - destruct (corrupt_or_loads f) as [[e ->]|NC].
    { rewrite (simplified_sendBulkEmails_eq env cs _ Hcs).
      intros [= _ <-]. by apply (I0 _). }
    destruct (simplified_run_inv env cs f Hcs NC I) as (s & Hs & E).
    + by apply I0.
    + intros k c s0 s1 _ W (R & ns & nf & E1 & E2 & F1 & F2) St.
      apply simplified_wanted_usable in W.
      destruct St as [Hs l|e Hs l]; subst l; unfold I;
        cbn [trace log sent failed].
      * read_turn env; cbn [mail_to SimplifiedDerived.options].
        all: split; [by apply Grow|].
        all: exists (ns ++ [SimplifiedDerived.sent_entry c (clock env (ticks s0))]), nf.
        all: rewrite E1, E2, <- app_assoc, fmap_app.
        all: repeat split; try done; by apply Grow.
      * read_turn env; cbn [mail_to SimplifiedDerived.options].
        all: split; [by apply Grow|].
        all: exists ns, (nf ++ [SimplifiedDerived.failed_entry c
                                  (clock env (ticks s0)) e]).
        all: rewrite E1, E2, <- app_assoc, fmap_app.
        all: repeat split; try done; by apply Grow.
    + rewrite E. intros [= _ <-]. cbn [trace log].
      rewrite recipients_app. cbn [Trace.recipients omap list_omap].
      by rewrite app_nil_r.
  - destruct (decide (ExtendedDerived.toSend cs f = [])) as [Z|NZ].
    { rewrite (extended_run_idle env cs f Hcs Z). intros [= _ <-].
      apply I0; [|done]. apply quiet_recipients.
      destruct f; repeat constructor. }
    destruct (extended_run_inv env cs f Hcs I NZ) as (s & Hs & E).
    + apply I0; [|done]. by rewrite (quiet_recipients _ (quiet_at_loop _ _)).
    + intros k c s0 s1 _ W (R & ns & nf & E1 & E2 & F1 & F2) St.
      apply extended_wanted_usable in W.
      destruct St as [e Pr l|t o Pr Hs l|t o e Pr Hs l]; subst l; unfold I;
        cbn [trace log sent failed]; try (apply prepared_to in Pr).
      * read_turn env.
        all: split; [done|].
        all: exists ns, (nf ++ [ExtendedDerived.failed_entry c
                                  (clock env (ticks s0)) e]).
        all: rewrite E1, E2, <- app_assoc, fmap_app.
        all: repeat split; try done; by apply Grow.
      * read_turn env; rewrite Pr.
        all: split; [by apply Grow|].
        all: exists (ns ++ [ExtendedDerived.sent_entry c (clock env (ticks s0))]), nf.
        all: rewrite E1, E2, <- app_assoc, fmap_app.
        all: repeat split; try done; by apply Grow.
      * read_turn env; rewrite Pr.
        all: split; [by apply Grow|].
        all: exists ns, (nf ++ [ExtendedDerived.failed_entry c
                                  (clock env (ticks s0)) e]).
        all: rewrite E1, E2, <- app_assoc, fmap_app.
        all: repeat split; try done; by apply Grow.
    + rewrite E. intros [= _ <-]. cbn [trace log].
      by rewrite recipients_app, (quiet_recipients _ (quiet_summary _ _)),
        app_nil_r.
Qed.

(** [unusable_addresses_are_left_out] at a list with two contacts without
    a usable address and one with. *)
Lemma unusable_addresses_are_left_out_witness :
  companies_file
    (Examples.env_with
       [More.unknown_address; Examples.native; More.malformed_address]
       Examples.accepting)
  = Holds [More.unknown_address; Examples.native; More.malformed_address]
  /\ Forall More.usable
       (Trace.recipients
          (trace (snd (Simplified.sendBulkEmails
                         (Examples.env_with
                            [More.unknown_address; Examples.native;
                             More.malformed_address]
                            Examples.accepting)
                         (initial Missing))))).
Proof.
  split; [reflexivity|].
  destruct (unusable_addresses_are_left_out
              (Examples.env_with
                 [More.unknown_address; Examples.native; More.malformed_address]
                 Examples.accepting)
              [More.unknown_address; Examples.native; More.malformed_address]
              Missing eq_refl) as [HS _].
  exact (proj1 (HS _ _ (surjective_pairing _))).
Defined.

(** ** The log file through a run *)

Section Writes.
Import More.

Lemma entries_sent (l : Log) (e : LogEntry) :
  entries (mkLog (sent l ++ [e]) (failed l)) = S (entries l).
Proof. unfold entries. cbn [sent failed]. rewrite length_app. cbn. lia. Qed.

Lemma entries_failed (l : Log) (e : LogEntry) :
  entries (mkLog (sent l) (failed l ++ [e])) = S (entries l).
Proof. unfold entries. cbn [sent failed]. rewrite length_app. cbn. lia. Qed.

End Writes.

(** The log file is written once per attempt, in full, and each write
    holds one entry more than the one before: with [n] contacts attempted,
    the writes hold 1, 2, ..., n entries more than the log that was
    loaded, and the file ends up holding the log as it is in memory.  A run
    that attempts nobody does not touch the file; in particular it does
    not create it.  Both variants. *)
Theorem one_write_per_attempt (env : Env) (cs : list Contact) (f : file Log) :
  companies_file env = Holds cs ->
  ((forall e, f <> Corrupt e) ->
   exists s',
     Simplified.sendBulkEmails env (initial f) = (Ret tt, s')
     /\ More.entries <$> More.writes (trace s')
        = seq (S (More.entries (Derived.loaded f)))
              (length (SimplifiedDerived.toSend cs f))
     /\ (SimplifiedDerived.toSend cs f = [] -> log_file s' = f)
     /\ (SimplifiedDerived.toSend cs f <> [] ->
         log_file s' = Holds (log s')
         /\ last (More.writes (trace s')) = Some (log s')))
  /\ (exists s',
        Extended.sendBulkEmails env (initial f) = (Ret tt, s')
        /\ More.entries <$> More.writes (trace s')
           = seq (S (More.entries (Derived.loaded f)))
                 (length (ExtendedDerived.toSend cs f))
        /\ (ExtendedDerived.toSend cs f = [] -> log_file s' = f)
        /\ (ExtendedDerived.toSend cs f <> [] ->
            log_file s' = Holds (log s')
            /\ last (More.writes (trace s')) = Some (log s'))).
Proof.
  intros Hcs.
  pose (I := fun (k : nat) (s : State) =>
    More.entries <$> More.writes (trace s)
    = seq (S (More.entries (Derived.loaded f))) k
    /\ More.entries (log s) = (More.entries (Derived.loaded f) + k)%nat
    /\ (k = 0%nat -> log_file s = f)
    /\ (k <> 0%nat ->
        log_file s = Holds (log s)
        /\ last (More.writes (trace s)) = Some (log s))).
  assert (Step : forall k s0 tr l,
    I k s0 ->
    More.writes tr = [l] ->
    More.entries l = S (More.entries (log s0)) ->
    I (S k) (mkState (Holds l) (sends s0) (ticks s0) (trace s0 ++ tr) l
                     (successCount s0) (failCount s0))).
  { intros k s0 tr l (W & N & _ & _) Htr Hl. unfold I. cbn [trace log log_file].
    rewrite writes_app, Htr, fmap_app, W, seq_S, Hl, N. cbn [fmap list_fmap].
    rewrite last_snoc.
    split; [do 3 f_equal; lia|]. split; [lia|]. done. }
  split.
  - intros Hf.
    destruct (simplified_run_inv env cs f Hcs Hf I) as (s & (W & N & Z & NZ) & E).
    + unfold I. cbn. split; [done|]. split; [lia|]. done.
    + intros k c s0 s1 _ _ H0 St.
      destruct St as [Hs l|e Hs l]; subst l.
      * eapply (Step k s0 _ _ H0); [|apply entries_sent].
        read_turn env; reflexivity.
      * eapply (Step k s0 _ _ H0); [|apply entries_failed].
        read_turn env; reflexivity.
    + eexists. split; [exact E|]. cbn [trace log log_file].
      rewrite writes_app. cbn [More.writes omap list_omap]. rewrite app_nil_r.
      split; [done|]. split.
      * intros T. apply Z. by rewrite T.
      * intros T. apply NZ. by destruct (SimplifiedDerived.toSend cs f).
  - destruct (decide (ExtendedDerived.toSend cs f = [])) as [T|NT].
    { eexists. split; [by apply extended_run_idle|].
      cbn [trace log log_file]. rewrite T.
      rewrite writes_app, (quiet_writes _ (quiet_preamble _ _)). done. }
    destruct (extended_run_inv env cs f Hcs I NT) as (s & (W & N & Z & NZ) & E).
    + unfold I. rewrite (quiet_writes _ (quiet_at_loop _ _)).
      cbn. split; [done|]. split; [lia|]. done.
    + intros k c s0 s1 _ _ H0 St.
      destruct St as [e Pr l|t o Pr Hs l|t o e Pr Hs l]; subst l.
      * eapply (Step k s0 _ _ H0); [|apply entries_failed].
        read_turn env; reflexivity.
      * eapply (Step k s0 _ _ H0); [|apply entries_sent].
        read_turn env; reflexivity.
      * eapply (Step k s0 _ _ H0); [|apply entries_failed].
        read_turn env; reflexivity.
    + eexists. split; [exact E|]. cbn [trace log log_file].
      rewrite writes_app, (quiet_writes _ (quiet_summary _ _)), app_nil_r.
      split; [done|]. split; [done|].
      intros _. apply NZ. by destruct (ExtendedDerived.toSend cs f).
Qed.

(** [one_write_per_attempt] at a run of the simplified variant over two
    contacts, from a log with one entry. *)
Lemma one_write_per_attempt_witness :
  companies_file
    (Examples.env_with [Examples.second; Examples.nameless]
                       Examples.rejecting_first)
  = Holds [Examples.second; Examples.nameless]
  /\ exists s',
       Simplified.sendBulkEmails
         (Examples.env_with [Examples.second; Examples.nameless]
                            Examples.rejecting_first)
         (initial (Holds Examples.earlier)) = (Ret tt, s')
       /\ More.entries <$> More.writes (trace s') = [2%nat; 3%nat].
Proof.
  split; [reflexivity|].
  destruct (one_write_per_attempt
              (Examples.env_with [Examples.second; Examples.nameless]
                                 Examples.rejecting_first)
              [Examples.second; Examples.nameless] (Holds Examples.earlier)
              eq_refl) as [HS _].
  destruct (HS ltac:(discriminate)) as (s' & E & W & _).
  exists s'. split; [exact E|exact W].
Defined.

(** ** The pauses of the simplified variant *)

Section Acceptances.
Import More.

Lemma acceptances_app (a b : list (option Error)) :
  acceptances (a ++ b) = (acceptances a + acceptances b)%nat.
Proof. unfold acceptances. by rewrite List.filter_app, length_app. Qed.

End Acceptances.

(** The simplified variant pauses for the full minute after a message the
    provider accepted, unless the contact was the last, and never after a
    message the provider rejected: with [n] contacts attempted there is one
    transport call each, and as many pauses as there are acceptances among
    the first [n - 1] calls. *)
Theorem simplified_pauses_after_accepted_only (env : Env) (cs : list Contact)
    (f : file Log) :
  companies_file env = Holds cs ->
  (forall e, f <> Corrupt e) ->
  exists s',
    Simplified.sendBulkEmails env (initial f) = (Ret tt, s')
    /\ length (Trace.answers (trace s')) = length (SimplifiedDerived.toSend cs f)
    /\ Trace.sleeps (trace s')
       = replicate
           (More.acceptances
              (take (length (SimplifiedDerived.toSend cs f) - 1)
                    (Trace.answers (trace s'))))
           (Simplified.CONFIG.DELAY_MINUTES * 60000).
Proof.
  intros Hcs Hf.
  set (n := length (SimplifiedDerived.toSend cs f)).
  pose (I := fun (k : nat) (s : State) =>
    length (Trace.answers (trace s)) = k
    /\ Trace.sleeps (trace s)
       = replicate (More.acceptances (take (n - 1) (Trace.answers (trace s))))
                   60000).
  destruct (simplified_run_inv env cs f Hcs Hf I) as (s & (A & S) & E).
  - split; [reflexivity|]. cbn. by rewrite take_nil.
  - intros k c s0 s1 _ _ (A & S) St. fold n in St.
    destruct St as [Hs l|e Hs l]; subst l; unfold I; cbn [trace];
      read_turn env; rewrite ?length_app, A, S; (split; [cbn; lia|]);
      try match goal with
      | H : Derived.not_last _ _ = true |- _ => apply not_last_lt in H
      | H : Derived.not_last _ _ = false |- _ => apply not_last_ge in H
      end.
    all: destruct (decide (k < n - 1)%nat);
      [ try (exfalso; lia);
        rewrite !take_ge by (rewrite ?length_app; cbn [length]; lia);
        rewrite acceptances_app; cbn [More.acceptances List.filter length];
        by rewrite ?Nat.add_0_r, ?Nat.add_1_r, ?replicate_S_end
      | try (exfalso; lia); by rewrite take_app_le by lia ].
  - eexists. split; [exact E|]. cbn [trace].
    rewrite answers_app, sleeps_app. cbn [Trace.answers Trace.sleeps omap list_omap].
    rewrite !app_nil_r. done.
Qed.

(** [simplified_pauses_after_accepted_only] at a list of three contacts
    where the provider rejects the first message. *)
Lemma simplified_pauses_after_accepted_only_witness :
  companies_file
    (Examples.env_with [Examples.native; Examples.second; Examples.nameless]
                       Examples.rejecting_first)
  = Holds [Examples.native; Examples.second; Examples.nameless]
  /\ exists s',
       Simplified.sendBulkEmails
         (Examples.env_with [Examples.native; Examples.second; Examples.nameless]
                            Examples.rejecting_first)
         (initial Missing) = (Ret tt, s')
       /\ length (Trace.answers (trace s')) = 3%nat.
Proof.
  split; [reflexivity|].
  destruct (simplified_pauses_after_accepted_only
              (Examples.env_with
                 [Examples.native; Examples.second; Examples.nameless]
                 Examples.rejecting_first)
              [Examples.native; Examples.second; Examples.nameless] Missing
              eq_refl ltac:(discriminate))
    as (s' & E & A & _).
  exists s'. split; [exact E|exact A].
Defined.


(** ** What a run records, and what the next run finds *)

Section Ledger.
Import More Derived.

Lemma filter_andb {A} (p q : A -> bool) (l : list A) :
  List.filter (fun a => p a && q a) l = List.filter q (List.filter p l).
Proof.
  induction l as [|a l IH]; [done|]. cbn [List.filter].
  destruct (p a); cbn [andb List.filter]; [|done].
  destruct (q a); by rewrite IH.
Qed.

Lemma sent_addresses_grown (l0 l1 : Log) (acc : list jsval) (a : jsval) :
  entry_email <$> sent l1 = (entry_email <$> sent l0) ++ acc ->
  bool_decide (a ∈ sent_addresses l1)
  = bool_decide (a ∈ sent_addresses l0) || bool_decide (a ∈ acc).
Proof.
  intros E. apply eq_true_iff_eq.
  rewrite orb_true_iff, !bool_decide_eq_true, !in_sent_addresses, E.
  apply elem_of_app.
Qed.

Lemma simplified_wanted_grown (l0 l1 : Log) (acc : list jsval) (c : Contact) :
  entry_email <$> sent l1 = (entry_email <$> sent l0) ++ acc ->
  Simplified.wanted (sent_addresses l1) c
  = Simplified.wanted (sent_addresses l0) c
    && negb (bool_decide (SimplifiedDerived.address c ∈ acc)).
Proof.
  intros E. unfold Simplified.wanted. fold (SimplifiedDerived.address c).
  rewrite (sent_addresses_grown l0 l1 acc _ E).
  destruct (truthy _), (strict_ne _ _), (bool_decide (_ ∈ sent_addresses l0)),
    (bool_decide (_ ∈ acc)), (match SimplifiedDerived.address c with
                              | JStr s => includes s 64 | _ => false end); done.
Qed.

Lemma extended_wanted_grown (l0 l1 : Log) (acc : list jsval) (c : Contact) :
  entry_email <$> sent l1 = (entry_email <$> sent l0) ++ acc ->
  Extended.wanted (sent_addresses l1) c
  = Extended.wanted (sent_addresses l0) c
    && negb (bool_decide (email c ∈ acc)).
Proof.
  intros E. unfold Extended.wanted.
  rewrite (sent_addresses_grown l0 l1 acc _ E).
  destruct (truthy _), (strict_ne _ _), (bool_decide (_ ∈ sent_addresses l0)),
    (bool_decide (_ ∈ acc)), (match email c with
                              | JStr s => includes s 64 | _ => false end); done.
Qed.

Lemma kept_loaded (f : file Log) (s : State) : kept f s -> loaded (log_file s) = log s.
Proof. intros [[[-> ->]| ->] _]; done. Qed.

Lemma kept_loads (f : file Log) (s : State) :
  (forall e, f <> Corrupt e) -> kept f s -> forall e, log_file s <> Corrupt e.
Proof. intros Hf [[[-> _]| ->] _]; [done|]. discriminate. Qed.

Lemma simplified_ledger (env : Env) (cs : list Contact) (f : file Log) :
  companies_file env = Holds cs ->
  (forall e, f <> Corrupt e) ->
  exists s',
    Simplified.sendBulkEmails env (initial f) = (Ret tt, s')
    /\ kept f s'
    /\ told <$> failed (log s')
       = (told <$> failed (loaded f)) ++ (as_told <$> rejected_to (trace s')).
Proof.
  intros Hcs Hf.
  pose (I := fun (k : nat) (s : State) =>
    kept f s
    /\ told <$> failed (log s)
       = (told <$> failed (loaded f)) ++ (as_told <$> rejected_to (trace s))).
  destruct (simplified_run_inv env cs f Hcs Hf I) as (s & ((D & A) & R) & E).
  - unfold I, kept. cbn. rewrite !app_nil_r. split; [split|]; auto.
  - intros k c s0 s1 _ _ ((D & A) & R) St.
    destruct St as [Hs l|e Hs l]; subst l; unfold I, kept;
      cbn [trace log log_file sent failed]; read_turn env;
      rewrite ?fmap_app, ?A, ?R, <- ?app_assoc;
      cbn [fmap list_fmap mail_to SimplifiedDerived.options entry_email
           SimplifiedDerived.sent_entry SimplifiedDerived.failed_entry
           told as_told entry_error fst snd];
      rewrite ?app_nil_r; (split; [split|]; [by right|done|done]).
  - eexists. split; [exact E|]. unfold kept.
    cbn [trace log log_file]. rewrite accepted_to_app, rejected_to_app.
    cbn [accepted_to rejected_to omap list_omap]. rewrite !app_nil_r.
    split; [split|]; done.
Qed.

Lemma extended_ledger (env : Env) (cs : list Contact) (f : file Log) :
  companies_file env = Holds cs ->
  exists s',
    Extended.sendBulkEmails env (initial f) = (Ret tt, s')
    /\ kept f s'
    /\ as_told <$> rejected_to (trace s') ⊆ told <$> failed (log s').
Proof.
  intros Hcs.
  destruct (decide (ExtendedDerived.toSend cs f = [])) as [Z|NZ].
  { eexists. split; [by apply extended_run_idle|]. unfold kept.
    cbn [trace log log_file].
    rewrite accepted_to_app, rejected_to_app,
      (quiet_accepted_to _ (quiet_preamble _ _)),
      (quiet_rejected_to _ (quiet_preamble _ _)).
    cbn. rewrite app_nil_r. split; [split; [by left|done]|].
    apply list_subseteq_nil. }
  pose (I := fun (k : nat) (s : State) =>
    kept f s
    /\ as_told <$> rejected_to (trace s) ⊆ told <$> failed (log s)).
  destruct (extended_run_inv env cs f Hcs I NZ) as (s & ((D & A) & R) & E).
  - unfold I, kept.
    rewrite (quiet_accepted_to _ (quiet_at_loop _ _)),
      (quiet_rejected_to _ (quiet_at_loop _ _)), app_nil_r.
    split; [split; [by left|done]|]. apply list_subseteq_nil.
  - intros k c s0 s1 _ _ ((D & A) & R) St.
    destruct St as [e Pr l|t o Pr Hs l|t o e Pr Hs l]; subst l; unfold I, kept;
      cbn [trace log log_file sent failed]; read_turn env;
      rewrite ?fmap_app, ?A, <- ?app_assoc, ?(prepared_to _ _ _ _ Pr);
      cbn [fmap list_fmap entry_email
           ExtendedDerived.sent_entry ExtendedDerived.failed_entry
           told as_told entry_error fst snd];
      rewrite ?app_nil_r, ?(prepared_to _ _ _ _ Pr);
      (split; [split; [by right|done]|]); try done.
    all: intros x Hx; apply elem_of_app;
      first [ apply elem_of_app in Hx as [Hx|Hx]; [left; by apply R|by right]
            | left; by apply R ].
  - eexists. split; [exact E|]. unfold kept.
    cbn [trace log log_file]. rewrite accepted_to_app, rejected_to_app,
      (quiet_accepted_to _ (quiet_summary _ _)),
      (quiet_rejected_to _ (quiet_summary _ _)), !app_nil_r.
    split; [split|]; done.
Qed.

End Ledger.

(** The log tells what the provider answered.  In both variants the
    addresses of the sent sequence after a run are those of the loaded log
    followed by the recipients of the messages the provider accepted, in
    the order of the calls.  In the simplified variant the failed sequence
    grows likewise by the recipients of the rejected messages, each with
    the provider's message; in the extended variant every rejected message
    is among the failed entries (which also hold the attempts that never
    reached the provider). *)
Theorem outcomes_are_recorded (env : Env) (cs : list Contact) (f : file Log) :
  companies_file env = Holds cs ->
  ((forall e, f <> Corrupt e) ->
   exists s',
     Simplified.sendBulkEmails env (initial f) = (Ret tt, s')
     /\ entry_email <$> sent (log s')
        = (entry_email <$> sent (Derived.loaded f))
          ++ More.accepted_to (trace s')
     /\ More.told <$> failed (log s')
        = (More.told <$> failed (Derived.loaded f))
          ++ (More.as_told <$> More.rejected_to (trace s')))
  /\ (exists s',
        Extended.sendBulkEmails env (initial f) = (Ret tt, s')
        /\ entry_email <$> sent (log s')
           = (entry_email <$> sent (Derived.loaded f))
             ++ More.accepted_to (trace s')
        /\ More.as_told <$> More.rejected_to (trace s')
           ⊆ More.told <$> failed (log s')).
Proof.
  intros Hcs. split.
  - intros Hf.
    destruct (simplified_ledger env cs f Hcs Hf) as (s' & E & [_ A] & R).
    by exists s'.
  - destruct (extended_ledger env cs f Hcs) as (s' & E & [_ A] & R).
    by exists s'.
Qed.

(** [outcomes_are_recorded] at two contacts, the first of which the
    provider rejects. *)
Lemma outcomes_are_recorded_witness :
  companies_file
    (Examples.env_with [Examples.native; Examples.second] Examples.rejecting_first)
  = Holds [Examples.native; Examples.second]
  /\ exists s',
       Simplified.sendBulkEmails
         (Examples.env_with [Examples.native; Examples.second]
                            Examples.rejecting_first)
         (initial Missing) = (Ret tt, s')
       /\ entry_email <$> sent (log s') = More.accepted_to (trace s').
Proof.
  split; [reflexivity|].
  destruct (outcomes_are_recorded
              (Examples.env_with [Examples.native; Examples.second]
                                 Examples.rejecting_first)
              [Examples.native; Examples.second] Missing eq_refl) as [HS _].
  destruct (HS ltac:(discriminate)) as (s' & E & A & _).
  exists s'. split; [exact E|exact A].
Defined.

Section Recipients.
Import More Derived Trace.

Lemma simplified_run_recipients (env : Env) (cs : list Contact) (f : file Log) :
  companies_file env = Holds cs ->
  (forall e, f <> Corrupt e) ->
  exists s',
    Simplified.sendBulkEmails env (initial f) = (Ret tt, s')
    /\ recipients (trace s')
       = SimplifiedDerived.address <$> SimplifiedDerived.toSend cs f
    /\ mails (trace s')
       = (fun c => (Simplified.createTransport env,
                    SimplifiedDerived.options env c))
         <$> SimplifiedDerived.toSend cs f.
Proof.
  intros Hcs Hf.
  pose (I := fun (k : nat) (s : State) =>
    recipients (trace s)
    = SimplifiedDerived.address <$> take k (SimplifiedDerived.toSend cs f)
    /\ mails (trace s)
       = (fun c => (Simplified.createTransport env,
                    SimplifiedDerived.options env c))
         <$> take k (SimplifiedDerived.toSend cs f)).
  destruct (simplified_run_inv env cs f Hcs Hf I) as (s & (R & Ms) & E).
  - done.
  - intros k c s0 s1 Hk _ (R & Ms) St.
    destruct St as [Hs l|e Hs l]; subst l; unfold I; cbn [trace];
      rewrite (take_S_r _ _ _ Hk), !fmap_app; read_turn env;
      rewrite R, Ms; done.
  - eexists. split; [exact E|]. cbn [trace].
    rewrite recipients_app, mails_app, R, Ms, !firstn_all. cbn.
    by rewrite !app_nil_r.
Qed.

Lemma made_inl (env : Env) (c : Contact) (e : Error) :
  ExtendedDerived.prepared env c = inl e -> made env c = None.
Proof. unfold made. by intros ->. Qed.

Lemma made_inr (env : Env) (c : Contact) (p : Transporter * MailOptions) :
  ExtendedDerived.prepared env c = inr p -> made env c = Some p.
Proof. unfold made. by intros ->. Qed.

Lemma extended_run_recipients (env : Env) (cs : list Contact) (f : file Log) :
  companies_file env = Holds cs ->
  exists s',
    Extended.sendBulkEmails env (initial f) = (Ret tt, s')
    /\ mails (trace s') = omap (made env) (ExtendedDerived.toSend cs f)
    /\ (truthy (GMAIL_USER env) = true ->
        truthy (GMAIL_APP_PASSWORD env) = true ->
        recipients (trace s')
        = email <$> List.filter named (ExtendedDerived.toSend cs f)).
Proof.
  intros Hcs.
  destruct (decide (ExtendedDerived.toSend cs f = [])) as [Z|NZ].
  { eexists. split; [by apply extended_run_idle|]. rewrite Z.
    cbn [trace]. rewrite recipients_app, mails_app,
      (quiet_recipients _ (quiet_preamble _ _)),
      (quiet_mails _ (quiet_preamble _ _)). done. }
  pose (I := fun (k : nat) (s : State) =>
    mails (trace s) = omap (made env) (take k (ExtendedDerived.toSend cs f))
    /\ (truthy (GMAIL_USER env) = true ->
        truthy (GMAIL_APP_PASSWORD env) = true ->
        recipients (trace s)
        = email <$> List.filter named (take k (ExtendedDerived.toSend cs f)))).
  destruct (extended_run_inv env cs f Hcs I NZ) as (s & (Ms & R) & E).
  - split.
    + by rewrite (quiet_mails _ (quiet_at_loop _ _)).
    + intros _ _. by rewrite (quiet_recipients _ (quiet_at_loop _ _)).
  - intros k c s0 s1 Hk _ (Ms & R) St. split.
    + destruct St as [e Pr l|t o Pr Hs l|t o e Pr Hs l]; subst l;
        cbn [trace]; rewrite (take_S_r _ _ _ Hk), omap_app; read_turn env;
        rewrite Ms, ?(made_inl _ _ _ Pr), ?(made_inr _ _ _ Pr);
        cbn [omap list_omap]; by rewrite ?app_nil_r.
    + intros U P. specialize (R U P).
      pose proof (prepared_named env c U P) as N.
      destruct St as [e Pr l|t o Pr Hs l|t o e Pr Hs l]; subst l;
        cbn [trace]; rewrite Pr in N;
        rewrite (take_S_r _ _ _ Hk), !List.filter_app, fmap_app;
        cbn [List.filter];
        [|destruct N as [N M]|destruct N as [N M]]; rewrite N;
        cbn [fmap list_fmap]; read_turn env;
        rewrite ?R, ?M, ?app_nil_r; done.
  - eexists. split; [exact E|]. cbn [trace].
    rewrite recipients_app, mails_app, Ms, !firstn_all,
      (quiet_recipients _ (quiet_summary _ _)),
      (quiet_mails _ (quiet_summary _ _)), !app_nil_r.
    split; [done|]. intros U P. by rewrite (R U P), firstn_all.
Qed.

Lemma simplified_toSend_next (cs : list Contact) (f : file Log) (s : State) :
  kept f s ->
  SimplifiedDerived.toSend cs (log_file s)
  = still_open SimplifiedDerived.address (trace s)
               (SimplifiedDerived.toSend cs f).
Proof.
  intros K. unfold SimplifiedDerived.toSend, still_open.
  rewrite (kept_loaded f s K), <- filter_andb.
  apply List.filter_ext. intros c.
  apply simplified_wanted_grown, K.
Qed.

Lemma extended_toSend_next (cs : list Contact) (f : file Log) (s : State) :
  kept f s ->
  ExtendedDerived.toSend cs (log_file s)
  = still_open email (trace s) (ExtendedDerived.toSend cs f).
Proof.
  intros K. unfold ExtendedDerived.toSend, still_open.
  rewrite (kept_loaded f s K), <- filter_andb.
  apply List.filter_ext. intros c.
  apply extended_wanted_grown, K.
Qed.

End Recipients.

(** Two runs in a row over the same contact list, the second starting from
    the log file the first one left (the provider and the clock may differ
    between the two).  The second run writes to the contacts the first run
    attempted whose address the provider did not accept then, in the order
    of the list, and to nobody else; in the extended variant, with both
    credentials set, to those of them that have a string as founder
    name. *)
Theorem the_next_run_writes_to_the_rest (env env2 : Env) (cs : list Contact)
    (f : file Log) :
  companies_file env = Holds cs ->
  companies_file env2 = Holds cs ->
  ((forall e, f <> Corrupt e) ->
   exists s1 s2,
     Simplified.sendBulkEmails env (initial f) = (Ret tt, s1)
     /\ Simplified.sendBulkEmails env2 (initial (log_file s1)) = (Ret tt, s2)
     /\ Trace.recipients (trace s2)
        = SimplifiedDerived.address
          <$> More.still_open SimplifiedDerived.address (trace s1)
                              (SimplifiedDerived.toSend cs f))
  /\ (truthy (GMAIL_USER env2) = true ->
      truthy (GMAIL_APP_PASSWORD env2) = true ->
      exists s1 s2,
        Extended.sendBulkEmails env (initial f) = (Ret tt, s1)
        /\ Extended.sendBulkEmails env2 (initial (log_file s1)) = (Ret tt, s2)
        /\ Trace.recipients (trace s2)
           = email
             <$> List.filter More.named
                   (More.still_open email (trace s1)
                                    (ExtendedDerived.toSend cs f))).
Proof.
  intros Hcs Hcs2. split.
  - intros Hf.
    destruct (simplified_ledger env cs f Hcs Hf) as (s1 & E1 & K & _).
    destruct (simplified_run_recipients env2 cs (log_file s1) Hcs2
                (kept_loads f s1 Hf K)) as (s2 & E2 & R & _).
    exists s1, s2. split; [exact E1|]. split; [exact E2|].
    by rewrite R, (simplified_toSend_next cs f s1 K).
  - intros U P.
    destruct (extended_ledger env cs f Hcs) as (s1 & E1 & K & _).
    destruct (extended_run_recipients env2 cs (log_file s1) Hcs2)
      as (s2 & E2 & _ & R).
    exists s1, s2. split; [exact E1|]. split; [exact E2|].
    by rewrite (R U P), (extended_toSend_next cs f s1 K).
Qed.

(** [the_next_run_writes_to_the_rest] at two contacts, with a provider
    that rejects the first message in the first run and accepts everything
    in the second. *)
Lemma the_next_run_writes_to_the_rest_witness :
  companies_file
    (Examples.env_with [Examples.native; Examples.second] Examples.rejecting_first)
  = Holds [Examples.native; Examples.second]
  /\ companies_file
       (Examples.env_with [Examples.native; Examples.second] Examples.accepting)
     = Holds [Examples.native; Examples.second]
  /\ exists s1 s2,
       Simplified.sendBulkEmails
         (Examples.env_with [Examples.native; Examples.second]
                            Examples.rejecting_first)
         (initial Missing) = (Ret tt, s1)
       /\ Simplified.sendBulkEmails
            (Examples.env_with [Examples.native; Examples.second]
                               Examples.accepting)
            (initial (log_file s1)) = (Ret tt, s2)
       /\ Trace.recipients (trace s2)
          = SimplifiedDerived.address
            <$> More.still_open SimplifiedDerived.address (trace s1)
                  [Examples.native; Examples.second].
Proof.
  split; [reflexivity|split; [reflexivity|]].
  destruct (the_next_run_writes_to_the_rest
              (Examples.env_with [Examples.native; Examples.second]
                                 Examples.rejecting_first)
              (Examples.env_with [Examples.native; Examples.second]
                                 Examples.accepting)
              [Examples.native; Examples.second] Missing eq_refl eq_refl)
    as [HS _].
  exact (HS ltac:(discriminate)).
Defined.

(** Every message a bulk run hands to the transport is made from its
    contact and the environment alone, whatever the position in the list,
    the clock, or what the provider answered before: in the simplified
    variant one message per contact that passed the filter, from the
    configured sender, with the fixed subject, the greeting followed by
    the letter, and the CV attached by path when the file is there; in
    the extended variant the same for the contacts for which the composer
    and [createTransport] return. *)
Theorem messages_depend_on_the_contact_only (env : Env) (cs : list Contact)
    (f : file Log) :
  companies_file env = Holds cs ->
  ((forall e, f <> Corrupt e) ->
   exists s',
     Simplified.sendBulkEmails env (initial f) = (Ret tt, s')
     /\ More.mails (trace s')
        = (fun c => (Simplified.createTransport env,
                     SimplifiedDerived.options env c))
          <$> SimplifiedDerived.toSend cs f)
  /\ (exists s',
        Extended.sendBulkEmails env (initial f) = (Ret tt, s')
        /\ More.mails (trace s')
           = omap (More.made env) (ExtendedDerived.toSend cs f)).
Proof.
  intros Hcs. split.
  - intros Hf.
    destruct (simplified_run_recipients env cs f Hcs Hf) as (s' & E & _ & Ms).
    by exists s'.
  - destruct (extended_run_recipients env cs f Hcs) as (s' & E & Ms & _).
    by exists s'.
Qed.

(** [messages_depend_on_the_contact_only] at two contacts. *)
Lemma messages_depend_on_the_contact_only_witness :
  companies_file
    (Examples.env_with [Examples.native; Examples.second] Examples.rejecting_first)
  = Holds [Examples.native; Examples.second]
  /\ exists s',
       Extended.sendBulkEmails
         (Examples.env_with [Examples.native; Examples.second]
                            Examples.rejecting_first)
         (initial Missing) = (Ret tt, s')
       /\ length (More.mails (trace s')) = 2%nat.
Proof.
  split; [reflexivity|].
  destruct (messages_depend_on_the_contact_only
              (Examples.env_with [Examples.native; Examples.second]
                                 Examples.rejecting_first)
              [Examples.native; Examples.second] Missing eq_refl)
    as [_ (s' & E & Ms)].
  exists s'. split; [exact E|]. rewrite Ms. reflexivity.
Defined.
